(** * Verification of the storage read path and the predicate compiler

    A shallow embedding of

    - [services/storage/store.go]: [Store.validateArgs], [Store.findShardIDs],
      [Store.Read], [Store.ReadTagKeys], [Store.ReadTagKeyValues],
      [tagKeysSlice] and [MergeTagKeys];
    - [cmd/store/tagkeys/command.go]: [parseTime], the time flags of
      [Command.Run], [Command.validate], the request built by
      [Command.query], the operand stack of [exprToNodeVisitor] ([pop],
      [pop2]), [mapOpToComparison] and [exprToNodeVisitor.Visit].

    Go values are modelled as follows.  An [int64] is a [Z]; the code only
    compares and copies them, so no wrap-around is involved.  A [string] is a
    [String.string], i.e. a sequence of bytes, compared bytewise as Go does.
    A slice is a [list]; the nil slice and the empty slice are both [[]].
    A function that can panic returns a [go] value; a Go result pair
    [(T, error)] is a pair whose second component is an [option error]. *)

From Stdlib Require Import List String Ascii ZArith Lia Bool Arith.
From Stdlib Require Import Sorted Permutation OrderedTypeEx.
Import ListNotations.

Set Implicit Arguments.
Set Warnings "-register-all".

(* ================================================================== *)
(** * Part I: the embedding *)
(* ================================================================== *)

(** ** Go runtime: panics and errors *)

(** The outcome of a Go call that may panic. *)
Inductive go (A : Type) : Type :=
| Return (a : A)
| Panic (msg : string).
Arguments Return {A} a.
Arguments Panic {A} msg.

Definition go_bind {A B} (m : go A) (k : A -> go B) : go B :=
  match m with
  | Return a => k a
  | Panic msg => Panic msg
  end.

Notation "x <- m ;; k" := (go_bind m (fun x => k))
  (at level 61, m at next level, right associativity).

(** [errors.New] and [fmt.Errorf] build an error out of its text. *)
Definition error := string.

(** ** Go slices of strings *)

(** [s[i]] for an index the caller keeps in range. *)
Definition at_index (s : list string) (i : nat) : string := nth i s EmptyString.

(** [s[i] = x], in place; the slice keeps its length. *)
Fixpoint set_index {A : Type} (s : list A) (i : nat) (x : A) : list A :=
  match s, i with
  | [], _ => []
  | _ :: t, O => x :: t
  | h :: t, S i' => h :: set_index t i' x
  end.

(** Go's [<] on strings: bytewise lexicographic order. *)
Definition str_less (a b : string) : bool := String.ltb a b.

(** ** [sort.Strings]

    [sort.Strings(s)] sorts [s] in increasing order of [<].  Two strings that
    are not ordered by [<] are the same string, so every sorting algorithm
    yields the same slice; an insertion sort stands for the library routine. *)
Fixpoint insert_string (x : string) (l : list string) : list string :=
  match l with
  | [] => [x]
  | y :: t => if str_less y x then y :: insert_string x t else x :: y :: t
  end.

Fixpoint sort_Strings (s : list string) : list string :=
  match s with
  | [] => []
  | x :: t => insert_string x (sort_Strings t)
  end.

(** ** [tsdb.TagKeys] *)

Record TagKeys : Type := mkTagKeys {
  Measurement : string;
  Keys : list string
}.

(** ** [MergeTagKeys] (store.go, lines 159-182) *)

(** The body of the loop [for i := range keys { s = append(s, keys[i].Keys...) }],
    from the nil slice. *)
Definition append_all (keys : list TagKeys) : list string :=
  fold_left (fun s k => s ++ Keys k) keys [].

(** One iteration of the dedupe loop at index [j], on the slice [s] and the
    write cursor [i]:
    [if s[i-1] != s[j] { s[i] = s[j]; i++ }]. *)
Definition dedupe_step (st : list string * nat) (j : nat) : list string * nat :=
  let '(s, i) := st in
  if negb (String.eqb (at_index s (i - 1)) (at_index s j))
  then (set_index s i (at_index s j), S i)
  else (s, i).

(** [i := 1; for j := 1; j < len(s); j++ { ... }]: the loop runs for
    [j = 1, ..., len(s) - 1] ([len(s)] does not change), and not at all on a
    slice of length 0 or 1. *)
Definition dedupe_loop (s : list string) : list string * nat :=
  fold_left dedupe_step (seq 1 (List.length s - 1)) (s, 1).

(** [s[:i]].  The slice expression panics when [i] exceeds the capacity.
    Here [s] is what [append] built: when it is empty it is the nil slice, of
    capacity 0; otherwise the capacity is at least the length. So the
    expression panics exactly when [i] exceeds the length. *)
Definition slice_to (s : list string) (i : nat) : go (list string) :=
  if i <=? List.length s then Return (firstn i s)
  else Panic "slice bounds out of range".

Definition MergeTagKeys (keys : list TagKeys) : go (list string) :=
  match keys with
  | [k] => Return (Keys k)
  | [] => Return []
  | _ =>
      let s := append_all keys in
      let s := sort_Strings s in
      let '(s, i) := dedupe_loop s in
      slice_to s i
  end.

(** ** [tagKeysSlice] (store.go, lines 130-134): the sort interface *)

Definition tagKeysSlice := list TagKeys.

Definition tagKeysSlice_Len (a : tagKeysSlice) : nat := List.length a.

(** [a[i], a[j] = a[j], a[i]]: both elements are read, then [a[i]] and
    [a[j]] are assigned; an index out of range panics. *)
Definition tagKeysSlice_Swap (a : tagKeysSlice) (i j : nat) : go tagKeysSlice :=
  match nth_error a i, nth_error a j with
  | Some x, Some y => Return (set_index (set_index a i y) j x)
  | _, _ => Panic "index out of range"
  end.

(** [a[i].Measurement < a[j].Measurement]. *)
Definition tagKeysSlice_Less (a : tagKeysSlice) (i j : nat) : go bool :=
  match nth_error a i, nth_error a j with
  | Some x, Some y => Return (str_less (Measurement x) (Measurement y))
  | _, _ => Panic "index out of range"
  end.

(** ** Collaborator calls

    The read path reaches its collaborators (the logger, the meta client, the
    TSDB store, the cursor constructors) by calls whose order matters to the
    caller.  A computation returns its value together with the calls it made,
    in order. *)

Inductive Event : Type :=
| LogInfo (msg database : string)
| CallDatabase (name : string)
| CallShardGroupsByTimeRange (database rp : string) (tmin tmax : Z)
| CallShards (ids : list Z)
| CallNewIndexSeriesCursor
| CallNewGroupSeriesCursor (keys : list string)
| CallNewLimitSeriesCursor (n o : Z)
| CallTagKeys (ids : list Z).

Definition M (A : Type) : Type := (A * list Event)%type.

Definition ret {A} (a : A) : M A := (a, []).

Definition bind {A B} (m : M A) (k : A -> M B) : M B :=
  let '(a, t1) := m in
  let '(b, t2) := k a in
  (b, t1 ++ t2).

Definition emit {A} (e : Event) (a : A) : M A := (a, [e]).


(** ** [strings.IndexByte] and slicing of a string *)

(** Index of the first [c] in [s], or [-1]. *)
Fixpoint IndexByte (s : string) (c : ascii) : Z :=
  match s with
  | EmptyString => (-1)%Z
  | String a t =>
      if Ascii.eqb a c then 0%Z
      else let r := IndexByte t c in
           if (r <? 0)%Z then (-1)%Z else (r + 1)%Z
  end.

(** [s[:p]] and [s[p:]] for [0 <= p <= len(s)]. *)
Definition str_to (s : string) (p : Z) : string := substring 0 (Z.to_nat p) s.
Definition str_from (s : string) (p : Z) : string :=
  substring (Z.to_nat p) (String.length s - Z.to_nat p) s.

(** ** The [meta] package: what the store reads of it

    [meta.DatabaseInfo] and its method [RetentionPolicy] are not part of the
    files verified here; a database is what the store uses of it: its default
    retention policy and the lookup of a policy by name. *)

Record RetentionPolicyInfo : Type := mkRetentionPolicyInfo {
  RetentionPolicyName : string
}.

Record DatabaseInfo : Type := mkDatabaseInfo {
  DefaultRetentionPolicy : string;
  RetentionPolicy : string -> option RetentionPolicyInfo
}.

Record ShardInfo : Type := mkShardInfo {
  ShardID : Z
}.

(** Times are nanoseconds since the epoch, as [time.Unix(0, ns)] builds them. *)
Record ShardGroupInfo : Type := mkShardGroupInfo {
  GroupID : Z;
  StartTime : Z;
  EndTime : Z;
  Shards : list ShardInfo
}.

(** The interface [StorageMetaClient]. *)
Record StorageMetaClient : Type := mkStorageMetaClient {
  Database : string -> option DatabaseInfo;
  ShardGroupsByTimeRange :
    string -> string -> Z -> Z -> list ShardGroupInfo * option error
}.

(** Modelled from the spec: the method [Less] of [meta.ShardGroupInfos], which
    is not among the files verified here.  The spec (section 4.2) has the
    groups ordered "by group start time": [a[i]] is less than [a[j]] when its
    start time is before the other's. *)
Definition ShardGroupInfos_Less (a b : ShardGroupInfo) : bool :=
  (StartTime a <? StartTime b)%Z.

(** [sort.Reverse(x)]: [Less(i, j)] is [x.Less(j, i)]. *)
Definition sort_Reverse {A} (less : A -> A -> bool) : A -> A -> bool :=
  fun a b => less b a.

(** ** The contract of [sort.Sort]

    [sort.Sort] is a routine of the Go library: it sorts in increasing order
    of [Less] and "is not guaranteed to be stable".  The store is verified for
    every routine that meets this contract on strict weak orders; the
    routine is a parameter of [findShardIDs]. *)

Definition strict_weak {A} (less : A -> A -> bool) : Prop :=
  (forall a, less a a = false) /\
  (forall a b c, less a b = true -> less b c = true -> less a c = true) /\
  (forall a b c, less a b = false -> less b c = false -> less a c = false).

(** No element is less than an earlier one. *)
Definition sorted_by {A} (less : A -> A -> bool) (l : list A) : Prop :=
  StronglySorted (fun a b => less b a = false) l.

Definition sort_contract {A} (srt : (A -> A -> bool) -> list A -> list A) : Prop :=
  forall less l, strict_weak less ->
    Permutation l (srt less l) /\ sorted_by less (srt less l).

(** Two routines that meet the contract.  [insertionSort] is the stable
    insertion sort of the Go library (sort.go):
    [for i := a+1; i < b; i++ { for j := i; j > a && Less(j, j-1); j-- { Swap(j, j-1) } }],
    which inserts each element after the elements not greater than it. *)
Section SortRoutines.
Variable A : Type.
Variable less : A -> A -> bool.

(** Insertion of [x] into the sorted prefix, which is given from its right
    end: [x] moves left past every element it is less than. *)
Fixpoint insert_right (x : A) (rprefix : list A) : list A :=
  match rprefix with
  | [] => [x]
  | y :: t => if less x y then y :: insert_right x t else x :: y :: t
  end.

Definition insertionSort (l : list A) : list A :=
  rev (fold_left (fun rprefix x => insert_right x rprefix) l []).

(** The pass that [sort.Sort] of Go 1.18 and before makes over a slice of at
    most 12 elements ahead of the insertion sort:
    [for i := a + 6; i < b; i++ { if Less(i, i-6) { Swap(i, i-6) } }]. *)
Definition swap_if_less (l : list A) (i : nat) : list A :=
  match nth_error l i, nth_error l (i - 6) with
  | Some x, Some y =>
      if less x y
      then firstn (i - 6) l ++ x :: firstn 5 (skipn (i - 5) l) ++ y :: skipn (S i) l
      else l
  | _, _ => l
  end.

Definition gap6_pass (l : list A) : list A :=
  fold_left swap_if_less (seq 6 (List.length l - 6)) l.

(** [sort.Sort] of Go 1.18 and before on a slice of at most 12 elements. *)
Definition sort_small (l : list A) : list A :=
  if List.length l <=? 1 then l else insertionSort (gap6_pass l).
End SortRoutines.

(** ** The wire predicate tree ([storage.Node]) *)

Inductive Node_Type : Type :=
| NodeTypeLogicalExpression
| NodeTypeComparisonExpression
| NodeTypeParenExpression
| NodeTypeTagRef
| NodeTypeLiteral.

Inductive Node_Logical : Type := LogicalAnd | LogicalOr.

(** The members of the enumeration that the compiler names. *)
Inductive Node_Comparison : Type :=
| ComparisonEqual
| ComparisonNotEqual
| ComparisonLess
| ComparisonLessEqual
| ComparisonGreater
| ComparisonGreaterEqual.

(** A [float64] is carried as its 64 bits; the compiler only copies it. *)
Definition float64 := Z.

(** The one-of field [Value] of a node. *)
Inductive Node_Value : Type :=
| Node_Comparison_ (Comparison : Node_Comparison)
| Node_Logical_ (Logical : Node_Logical)
| Node_StringValue (StringValue : string)
| Node_FloatValue (FloatValue : float64)
| Node_IntegerValue (IntegerValue : Z)
| Node_UnsignedValue (UnsignedValue : Z)
| Node_TagRefValue (TagRefValue : string).

(** [Value] is [None] where the composite literal leaves the field out. *)
Inductive Node : Type :=
| mkNode (NodeType : Node_Type) (Value : option Node_Value) (Children : list Node).

Definition NodeType (n : Node) : Node_Type := let '(mkNode t _ _) := n in t.
Definition Value (n : Node) : option Node_Value := let '(mkNode _ v _) := n in v.
Definition Children (n : Node) : list Node := let '(mkNode _ _ c) := n in c.

(** ** The store (store.go) *)

Record TimestampRange : Type := mkTimestampRange {
  Start : Z;
  End_ : Z
}.

Section Store.
(** Types of the packages around the store, which it passes on unread. *)
Variable Context : Type.
Variable Shard : Type.
Variable Aggregate : Type.
Variable ReadTagKeyValuesRequest : Type.
(** The interface [seriesCursor], the cursor type [*indexSeriesCursor] and
    its conversion to the interface. *)
Variable seriesCursor : Type.
Variable indexSeriesCursor : Type.
Variable asSeriesCursor : indexSeriesCursor -> seriesCursor.

(** [models.MinNanoTime] and [models.MaxNanoTime]. *)
Variable MinNanoTime MaxNanoTime : Z.

(** The routine [sort.Sort]. *)
Variable sort_Sort :
  (ShardGroupInfo -> ShardGroupInfo -> bool) -> list ShardGroupInfo -> list ShardGroupInfo.

Record ReadRequest : Type := mkReadRequest {
  RR_Database : string;
  RR_TimestampRange : TimestampRange;
  RR_Descending : bool;
  RR_Grouping : list string;
  RR_SeriesLimit : Z;
  RR_SeriesOffset : Z;
  RR_PointsLimit : Z;
  RR_Aggregate : option Aggregate;
  RR_Predicate : option Node
}.

Record ReadTagKeysRequest : Type := mkReadTagKeysRequest {
  TK_Database : string;
  TK_TimestampRange : TimestampRange
}.

(** [tsdb.Store], as far as the store calls it. *)
Record tsdb_Store : Type := mkTsdbStore {
  tsdb_Shards : list Z -> list Shard;
  tsdb_TagKeys : list Z -> list TagKeys * option error
}.

(** The constructors of the cursor pipeline, defined in other files of the
    package. *)
Record cursor_constructors : Type := mkCursorConstructors {
  newIndexSeriesCursor :
    Context -> ReadRequest -> list Shard -> option indexSeriesCursor * option error;
  newGroupSeriesCursor : Context -> seriesCursor -> list string -> seriesCursor;
  newLimitSeriesCursor : Context -> seriesCursor -> Z -> Z -> seriesCursor
}.

Record Store : Type := mkStore {
  TSDBStore : tsdb_Store;
  MetaClient : StorageMetaClient;
  Cursors : cursor_constructors
}.

Record readRequest : Type := mkreadRequest {
  rr_ctx : Context;
  rr_start : Z;
  rr_end : Z;
  rr_asc : bool;
  rr_limit : Z;
  rr_aggregate : option Aggregate
}.

Record ResultSet : Type := mkResultSet {
  rs_req : readRequest;
  rs_cur : seriesCursor
}.

(** [findShardIDs] (lines 33-56). *)
Definition findShardIDs (s : Store) (database rp : string) (desc : bool)
    (start end_ : Z) : M (list Z * option error) :=
  bind (emit (CallShardGroupsByTimeRange database rp start end_)
             (ShardGroupsByTimeRange (MetaClient s) database rp start end_))
  (fun '(groups, err) =>
    match err with
    | Some e => ret ([], Some e)
    | None =>
        if Nat.eqb (List.length groups) 0 then ret ([], None)
        else
          let groups :=
            if desc then sort_Sort (sort_Reverse ShardGroupInfos_Less) groups
            else sort_Sort ShardGroupInfos_Less groups in
          let shardIDs :=
            fold_left
              (fun ids g => fold_left (fun ids si => ids ++ [ShardID si]) (Shards g) ids)
              groups [] in
          ret (shardIDs, None)
    end).

(** [validateArgs] (lines 58-87). *)
Definition validateArgs (s : Store) (database : string) (start end_ : Z)
    : M (string * string * Z * Z * option error) :=
  let rp := EmptyString in
  let p := IndexByte database "/"%char in
  let '(database, rp) :=
    if (p >? -1)%Z then (str_to database p, str_from database (p + 1))
    else (database, rp) in
  bind (emit (LogInfo "metaclient check" database) tt) (fun _ =>
  bind (emit (CallDatabase database) (Database (MetaClient s) database)) (fun di =>
    match di with
    | None => ret (EmptyString, EmptyString, 0%Z, 0%Z, Some "no database"%string)
    | Some di =>
        let rp := if String.eqb rp EmptyString then DefaultRetentionPolicy di else rp in
        match RetentionPolicy di rp with
        | None =>
            ret (EmptyString, EmptyString, 0%Z, 0%Z, Some "invalid retention policy"%string)
        | Some _ =>
            let start := if (start <=? 0)%Z then MinNanoTime else start in
            let end_ := if (end_ <=? 0)%Z then MaxNanoTime else end_ in
            ret (database, rp, start, end_, None)
        end
    end)).

(** [Read] (lines 89-128). *)
Definition Read (s : Store) (ctx : Context) (req : ReadRequest)
    : M (option ResultSet * option error) :=
  bind (validateArgs s (RR_Database req) (Start (RR_TimestampRange req))
                     (End_ (RR_TimestampRange req)))
  (fun '(database, rp, start, end_, err) =>
    match err with
    | Some e => ret (None, Some e)
    | None =>
  bind (findShardIDs s database rp (RR_Descending req) start end_)
  (fun '(shardIDs, err) =>
    match err with
    | Some e => ret (None, Some e)
    | None =>
  bind (emit (CallShards shardIDs) (tsdb_Shards (TSDBStore s) shardIDs)) (fun shards =>
  bind (emit CallNewIndexSeriesCursor (newIndexSeriesCursor (Cursors s) ctx req shards))
  (fun '(ic, err) =>
    match err, ic with
    | Some e, _ => ret (None, Some e)
    | None, None => ret (None, None)
    | None, Some ic =>
        let cur := asSeriesCursor ic in
        bind (if (0 <? Z.of_nat (List.length (RR_Grouping req)))%Z
              then emit (CallNewGroupSeriesCursor (RR_Grouping req))
                        (newGroupSeriesCursor (Cursors s) ctx cur (RR_Grouping req))
              else ret cur) (fun cur =>
        bind (if ((RR_SeriesLimit req >? 0) || (RR_SeriesOffset req >? 0))%Z
              then emit (CallNewLimitSeriesCursor (RR_SeriesLimit req)
                                                  (RR_SeriesOffset req))
                        (newLimitSeriesCursor (Cursors s) ctx cur (RR_SeriesLimit req)
                                              (RR_SeriesOffset req))
              else ret cur) (fun cur =>
        ret (Some {| rs_req := {| rr_ctx := ctx;
                                  rr_start := start;
                                  rr_end := end_;
                                  rr_asc := negb (RR_Descending req);
                                  rr_limit := RR_PointsLimit req;
                                  rr_aggregate := RR_Aggregate req |};
                     rs_cur := cur |}, None)))
    end))
    end)
    end).

(** [ReadTagKeys] (lines 136-153).  The outcome is a panic when
    [MergeTagKeys] panics. *)
Definition ReadTagKeys (s : Store) (ctx : Context) (req : ReadTagKeysRequest)
    : M (go (list string * option error)) :=
  bind (validateArgs s (TK_Database req) (Start (TK_TimestampRange req))
                     (End_ (TK_TimestampRange req)))
  (fun '(database, rp, start, end_, err) =>
    match err with
    | Some e => ret (Return ([], Some e))
    | None =>
  bind (findShardIDs s database rp false start end_)
  (fun '(shardIDs, err) =>
    match err with
    | Some e => ret (Return ([], Some e))
    | None =>
  bind (emit (CallTagKeys shardIDs) (tsdb_TagKeys (TSDBStore s) shardIDs))
  (fun '(keys, err) =>
    match err with
    | Some e => ret (Return ([], Some e))
    | None => ret (r <- MergeTagKeys keys ;; Return (r, None))
    end)
    end)
    end).

(** [ReadTagKeyValues] (lines 155-157).  The result is an [interface{}];
    the only value the function returns of it is nil. *)
Definition ReadTagKeyValues (s : Store) (ctx : Context) (req : ReadTagKeyValuesRequest)
    : M (option unit * option error) :=
  ret (None, None).
End Store.

(** ** The command (command.go) *)

(** The fields of [Command] that [validate] and [query] read. *)
Record Command : Type := mkCommand {
  cmd_database : string;
  cmd_retentionPolicy : string;
  cmd_startTime : Z;
  cmd_endTime : Z
}.

(** [Command.validate] (lines 117-125). *)
Definition validate (cmd : Command) : option error :=
  if String.eqb (cmd_database cmd) EmptyString
  then Some "must specify a database"%string
  else if (negb (cmd_startTime cmd =? 0) && negb (cmd_endTime cmd =? 0)
           && (cmd_endTime cmd <? cmd_startTime cmd))%Z
  then Some "end time before start time"%string
  else None.

(** [parseTime] (lines 46-56).  [time.Parse(time.RFC3339, v)] followed by
    [UnixNano] and [strconv.ParseInt(v, 10, 64)] are routines of the Go
    library, given as parameters: each yields a number or fails. *)
Definition parseTime (time_Parse ParseInt : string -> option Z) (v : string)
    : Z * option error :=
  match time_Parse v with
  | Some s => (s, None)
  | None =>
      match ParseInt v with
      | Some i => (i, None)
      | None => (0%Z, Some "invalid time"%string)
      end
  end.

(** The part of [Command.Run] between the parsing of the flags and the
    dial (lines 81-106): the start and the end are parsed, or set to the
    engine minimum and maximum when the flag is empty, and the command is
    validated.  The result is the command and the error that [Run] returns
    at this point, if any. *)
Definition Run_times (time_Parse ParseInt : string -> option Z)
    (MinNanoTime MaxNanoTime : Z) (cmd : Command) (start end_ : string)
    : Command * option error :=
  let '(cmd, err) :=
    if negb (String.eqb start EmptyString) then
      let '(t, err) := parseTime time_Parse ParseInt start in
      match err with
      | Some e => (cmd, Some e)
      | None => ({| cmd_database := cmd_database cmd;
                    cmd_retentionPolicy := cmd_retentionPolicy cmd;
                    cmd_startTime := t;
                    cmd_endTime := cmd_endTime cmd |}, None)
      end
    else ({| cmd_database := cmd_database cmd;
             cmd_retentionPolicy := cmd_retentionPolicy cmd;
             cmd_startTime := MinNanoTime;
             cmd_endTime := cmd_endTime cmd |}, None) in
  match err with
  | Some e => (cmd, Some e)
  | None =>
      let '(cmd, err) :=
        if negb (String.eqb end_ EmptyString) then
          let '(t, err) := parseTime time_Parse ParseInt end_ in
          match err with
          | Some e => (cmd, Some e)
          | None => ({| cmd_database := cmd_database cmd;
                        cmd_retentionPolicy := cmd_retentionPolicy cmd;
                        cmd_startTime := cmd_startTime cmd;
                        cmd_endTime := t |}, None)
          end
        else ({| cmd_database := cmd_database cmd;
                 cmd_retentionPolicy := cmd_retentionPolicy cmd;
                 cmd_startTime := cmd_startTime cmd;
                 cmd_endTime := MaxNanoTime |}, None) in
      match err with
      | Some e => (cmd, Some e)
      | None => (cmd, validate cmd)
      end
  end.

(** The request that [Command.query] builds (lines 128-135). *)
Definition query_request (cmd : Command) : string * TimestampRange :=
  let database := cmd_database cmd in
  let database :=
    if negb (String.eqb (cmd_retentionPolicy cmd) EmptyString)
    then (database ++ "/" ++ cmd_retentionPolicy cmd)%string
    else database in
  (database, {| Start := cmd_startTime cmd; End_ := cmd_endTime cmd |}).

(** ** The predicate compiler (command.go, lines 195-339) *)

(** The operator tokens of [influxql.Token], the ones a [BinaryExpr] carries. *)
Inductive Token : Type :=
| ADD | SUB | MUL | DIV | MOD
| BITWISE_AND | BITWISE_OR | BITWISE_XOR
| AND | OR
| EQ | NEQ | EQREGEX | NEQREGEX
| LT | LTE | GT | GTE.

(** [Token.String], which [%s] prints: the operator as the query language
    writes it. *)
Definition Token_String (op : Token) : string :=
  match op with
  | ADD => "+" | SUB => "-" | MUL => "*" | DIV => "/" | MOD => "%"
  | BITWISE_AND => "&" | BITWISE_OR => "|" | BITWISE_XOR => "^"
  | AND => "AND" | OR => "OR"
  | EQ => "=" | NEQ => "!=" | EQREGEX => "=~" | NEQREGEX => "!~"
  | LT => "<" | LTE => "<=" | GT => ">" | GTE => ">="
  end%string.

Definition Token_eqb (a b : Token) : bool :=
  match a, b with
  | ADD, ADD | SUB, SUB | MUL, MUL | DIV, DIV | MOD, MOD
  | BITWISE_AND, BITWISE_AND | BITWISE_OR, BITWISE_OR | BITWISE_XOR, BITWISE_XOR
  | AND, AND | OR, OR
  | EQ, EQ | NEQ, NEQ | EQREGEX, EQREGEX | NEQREGEX, NEQREGEX
  | LT, LT | LTE, LTE | GT, GT | GTE, GTE => true
  | _, _ => false
  end.

(** The node shapes of [influxql] that [Visit] has no case for. *)
Inductive OtherNode : Type :=
| BooleanLiteral | DurationLiteral | TimeLiteral | NilLiteral
| RegexLiteral | ListLiteral | BoundParameter
| Call | Distinct | Wildcard | Statement.

(** The syntax tree that [Visit] is given, as the parser builds it: the
    operands of a node are nodes, never nil.  Under a node of a shape that
    [Visit] has no case for, nothing is visited. *)
Inductive Expr : Type :=
| BinaryExpr (Op : Token) (LHS RHS : Expr)
| ParenExpr (e : Expr)
| StringLiteral (Val : string)
| NumberLiteral (Val : float64)
| IntegerLiteral (Val : Z)
| UnsignedLiteral (Val : Z)
| VarRef (Val : string)
| Other (shape : OtherNode).

Record exprToNodeVisitor : Type := mkVisitor {
  nodes : list Node;
  err : option error
}.

(** [Err] (lines 200-202). *)
Definition Err (v : exprToNodeVisitor) : option error := err v.

(** [v.err != nil]. *)
Definition failed (v : exprToNodeVisitor) : bool :=
  match err v with Some _ => true | None => false end.

(** [v.nodes = append(v.nodes, n)]. *)
Definition push (v : exprToNodeVisitor) (n : Node) : exprToNodeVisitor :=
  {| nodes := nodes v ++ [n]; err := err v |}.

(** [pop] (lines 204-211). *)
Definition pop (v : exprToNodeVisitor) : go (Node * exprToNodeVisitor) :=
  if List.length (nodes v) <? 1 then Panic "exprToNodeVisitor: stack empty"
  else
    match rev (nodes v) with
    | top :: _ => Return (top, {| nodes := removelast (nodes v); err := err v |})
    | [] => Panic "index out of range"
    end.

(** [pop2] (lines 213-222). *)
Definition pop2 (v : exprToNodeVisitor) : go (Node * Node * exprToNodeVisitor) :=
  if List.length (nodes v) <? 2 then Panic "exprToNodeVisitor: stack empty"
  else
    match rev (nodes v) with
    | rhs :: lhs :: _ =>
        Return (lhs, rhs, {| nodes := removelast (removelast (nodes v)); err := err v |})
    | _ => Panic "index out of range"
    end.

(** [mapOpToComparison] (lines 224-242).  [None] is the value [-1] of the
    default case, which is no member of the enumeration. *)
Definition mapOpToComparison (op : Token) : option Node_Comparison :=
  match op with
  | EQ => Some ComparisonEqual
  | NEQ => Some ComparisonNotEqual
  | LT => Some ComparisonLess
  | LTE => Some ComparisonLessEqual
  | GT => Some ComparisonGreater
  | GTE => Some ComparisonGreaterEqual
  | _ => None
  end.

(** [Visit] (lines 244-339).  [Visit] returns the nil visitor in every case,
    so [influxql.Walk(v, n)], which visits [n] and goes on to the children
    of [n] only under a visitor that is not nil, is [v.Visit(n)].

    In the case of [ParenExpr] the call [v.pop()] stands inside the arguments
    of [append(v.nodes, ...)]; the compiler runs the call ahead of the
    statement, so that [v.nodes] is read after the pop. *)
Fixpoint Visit (node : Expr) (v : exprToNodeVisitor) : go exprToNodeVisitor :=
  match node with
  | BinaryExpr op lhs rhs =>
      if failed v then Return v else
      v <- Visit lhs v ;;
      if failed v then Return v else
      v <- Visit rhs v ;;
      if failed v then Return v else
      match mapOpToComparison op with
      | Some comp =>
          p <- pop2 v ;;
          let '(l, r, v) := p in
          Return (push v (mkNode NodeTypeComparisonExpression
                                 (Some (Node_Comparison_ comp)) [l; r]))
      | None =>
          if Token_eqb op AND || Token_eqb op OR then
            let lop := if Token_eqb op AND then LogicalAnd else LogicalOr in
            p <- pop2 v ;;
            let '(l, r, v) := p in
            Return (push v (mkNode NodeTypeLogicalExpression
                                   (Some (Node_Logical_ lop)) [l; r]))
          else
            Return {| nodes := nodes v;
                      err := Some ("unsupported operator, " ++ Token_String op)%string |}
      end
  | ParenExpr e =>
      v <- Visit e v ;;
      if failed v then Return v else
      p <- pop v ;;
      let '(top, v) := p in
      Return (push v (mkNode NodeTypeParenExpression None [top]))
  | StringLiteral val =>
      Return (push v (mkNode NodeTypeLiteral (Some (Node_StringValue val)) []))
  | NumberLiteral val =>
      Return (push v (mkNode NodeTypeLiteral (Some (Node_FloatValue val)) []))
  | IntegerLiteral val =>
      Return (push v (mkNode NodeTypeLiteral (Some (Node_IntegerValue val)) []))
  | UnsignedLiteral val =>
      Return (push v (mkNode NodeTypeLiteral (Some (Node_UnsignedValue val)) []))
  | VarRef val =>
      Return (push v (mkNode NodeTypeTagRef (Some (Node_TagRefValue val)) []))
  | Other _ =>
      Return {| nodes := nodes v; err := Some "unsupported expression"%string |}
  end.

(** [influxql.Walk(v, node)] under this visitor. *)
Definition Walk (v : exprToNodeVisitor) (node : Expr) : go exprToNodeVisitor :=
  Visit node v.

(** The compiler as [query] would run it (lines 143-149):
    [var v exprToNodeVisitor; influxql.Walk(&v, expr)]. *)
Definition compile (e : Expr) : go exprToNodeVisitor :=
  Walk {| nodes := []; err := None |} e.

(** The arity invariant of the wire tree. *)
Fixpoint arity_ok (n : Node) : bool :=
  let '(mkNode t _ cs) := n in
  (match t with
   | NodeTypeComparisonExpression | NodeTypeLogicalExpression => Nat.eqb (List.length cs) 2
   | NodeTypeParenExpression => Nat.eqb (List.length cs) 1
   | NodeTypeLiteral | NodeTypeTagRef => Nat.eqb (List.length cs) 0
   end)
  && (fix all (l : list Node) : bool :=
        match l with
        | [] => true
        | c :: l' => arity_ok c && all l'
        end) cs.

(** The operators that [Visit] compiles. *)
Definition supported_op (op : Token) : bool :=
  match mapOpToComparison op with
  | Some _ => true
  | None => Token_eqb op AND || Token_eqb op OR
  end.

(** [e] has a binary operator that [Visit] does not compile. *)
Fixpoint has_unsupported_op (e : Expr) : bool :=
  match e with
  | BinaryExpr op l r =>
      negb (supported_op op) || has_unsupported_op l || has_unsupported_op r
  | ParenExpr e => has_unsupported_op e
  | _ => false
  end.

(** [op] is the operator of a binary node of [e]. *)
Fixpoint op_in (op : Token) (e : Expr) : bool :=
  match e with
  | BinaryExpr op' l r => Token_eqb op op' || op_in op l || op_in op r
  | ParenExpr e => op_in op e
  | _ => false
  end.

(** [e] has a node of a shape that [Visit] has no case for. *)
Fixpoint has_other (e : Expr) : bool :=
  match e with
  | BinaryExpr _ l r => has_other l || has_other r
  | ParenExpr e => has_other e
  | Other _ => true
  | _ => false
  end.

(** ** Reference definitions for the statements *)

(** Strings in strictly increasing order, and in non-decreasing order. *)
Definition str_lt (a b : string) : Prop := str_less a b = true.
Definition str_le (a b : string) : Prop := str_less b a = false.

(** All the keys of the input, measurement after measurement. *)
Definition all_keys (keys : list TagKeys) : list string :=
  List.concat (map Keys keys).

(** The dedupe pass as a function on lists: an element is kept when it
    differs from the last element kept. *)
Definition compact_step (kept : list string) (x : string) : list string :=
  match kept with
  | [] => [x]
  | _ => if String.eqb (last kept EmptyString) x then kept else kept ++ [x]
  end.

Definition compact (s : list string) : list string :=
  fold_left compact_step s [].

(** What the spec asks of the output [r] of the merge on [keys]: sorted
    ascending, without duplicates, and the deduplicated union of the input
    key lists as a multiset. *)
Definition merged (keys : list TagKeys) (r : list string) : Prop :=
  StronglySorted str_lt r /\ NoDup r /\
  Permutation r (nodup string_dec (all_keys keys)).


(** ** Reference definitions for the store *)

(** The database name that [validateArgs] looks up: the part of the argument
    before the first ['/'], or all of it. *)
Definition database_part (database : string) : string :=
  let p := IndexByte database "/"%char in
  if (p >? -1)%Z then str_to database p else database.

(** The retention policy that the argument names: the part after the first
    ['/'], empty when there is none. *)
Definition policy_part (database : string) : string :=
  let p := IndexByte database "/"%char in
  if (p >? -1)%Z then str_from database (p + 1) else EmptyString.

(** The bounds after the substitution of the sentinel values. *)
Definition norm_start (MinNanoTime start : Z) : Z :=
  if (start <=? 0)%Z then MinNanoTime else start.
Definition norm_end (MaxNanoTime end_ : Z) : Z :=
  if (end_ <=? 0)%Z then MaxNanoTime else end_.

(** The calls that wrap the index cursor of a request: the group cursor when
    the request has grouping keys, then the limit cursor when the series
    limit or the series offset is positive. *)
Definition cursor_calls {Aggregate : Type} (req : ReadRequest Aggregate) : list Event :=
  (if (0 <? Z.of_nat (List.length (RR_Grouping req)))%Z
   then [CallNewGroupSeriesCursor (RR_Grouping req)] else [])
  ++ (if ((RR_SeriesLimit req >? 0) || (RR_SeriesOffset req >? 0))%Z
      then [CallNewLimitSeriesCursor (RR_SeriesLimit req) (RR_SeriesOffset req)]
      else []).

Definition is_shard_group_lookup (e : Event) : bool :=
  match e with
  | CallShardGroupsByTimeRange _ _ _ _ => true
  | _ => false
  end.

(** The shard ids of a list of groups, group after group, each group's
    shards in their stored order. *)
Definition shard_ids (groups : list ShardGroupInfo) : list Z :=
  flat_map (fun g => map ShardID (Shards g)) groups.

(** Groups in the order of their start times. *)
Definition ascending_start (groups : list ShardGroupInfo) : Prop :=
  StronglySorted (fun a b => (StartTime a <= StartTime b)%Z) groups.
Definition descending_start (groups : list ShardGroupInfo) : Prop :=
  StronglySorted (fun a b => (StartTime b <= StartTime a)%Z) groups.

(** ** A store to run the read path on

    One database ["db"] with the default retention policy ["autogen"]; seven
    shard groups of one shard each, the shard of group [n] having the id [n];
    the first six groups start at time 5 and the last one at time 1. *)

Definition example_database : DatabaseInfo :=
  {| DefaultRetentionPolicy := "autogen";
     RetentionPolicy := fun name =>
       if String.eqb name "autogen" then Some {| RetentionPolicyName := "autogen" |}
       else None |}.

Definition example_group (id start : Z) : ShardGroupInfo :=
  {| GroupID := id; StartTime := start; EndTime := (start + 1)%Z;
     Shards := [{| ShardID := id |}] |}.

Definition example_groups : list ShardGroupInfo :=
  [example_group 1 5; example_group 2 5; example_group 3 5; example_group 4 5;
   example_group 5 5; example_group 6 5; example_group 7 1].

Definition example_meta : StorageMetaClient :=
  {| Database := fun name =>
       if String.eqb name "db" then Some example_database else None;
     ShardGroupsByTimeRange := fun _ _ _ _ => (example_groups, None) |}.

(** The index holds no series; it has the measurements ["cpu"] and ["mem"]. *)
Definition example_store : Store unit unit unit unit unit :=
  {| TSDBStore := {| tsdb_Shards := fun ids => map (fun _ => tt) ids;
                     tsdb_TagKeys := fun _ =>
                       ([mkTagKeys "cpu" ["host"; "region"];
                         mkTagKeys "mem" ["host"]]%string, None) |};
     MetaClient := example_meta;
     Cursors := {| newIndexSeriesCursor := fun _ _ _ => (None, None);
                   newGroupSeriesCursor := fun _ c _ => c;
                   newLimitSeriesCursor := fun _ c _ _ => c |} |}.

Definition example_request (database : string) (start end_ : Z) : ReadRequest unit :=
  {| RR_Database := database;
     RR_TimestampRange := {| Start := start; End_ := end_ |};
     RR_Descending := false;
     RR_Grouping := [];
     RR_SeriesLimit := 0;
     RR_SeriesOffset := 0;
     RR_PointsLimit := 0;
     RR_Aggregate := None;
     RR_Predicate := None |}.

(** The same store over an index that has series: cursors are named by
    strings, which show how they are wrapped. *)
Definition example_store_series : Store unit unit unit string unit :=
  {| TSDBStore := TSDBStore example_store;
     MetaClient := example_meta;
     Cursors := {| newIndexSeriesCursor := fun _ _ _ => (Some tt, None);
                   newGroupSeriesCursor := fun _ c _ => ("group(" ++ c ++ ")")%string;
                   newLimitSeriesCursor := fun _ c _ _ => ("limit(" ++ c ++ ")")%string |} |}.

(** The same store over an index whose measurements have no tag key. *)
Definition example_store_no_keys : Store unit unit unit unit unit :=
  {| TSDBStore := {| tsdb_Shards := fun ids => map (fun _ => tt) ids;
                     tsdb_TagKeys := fun _ =>
                       ([mkTagKeys "cpu" []; mkTagKeys "mem" []]%string, None) |};
     MetaClient := example_meta;
     Cursors := Cursors example_store |}.

(** [models.MinNanoTime] and [models.MaxNanoTime] as the engine defines them:
    [math.MinInt64 + 2] and [math.MaxInt64 - 1]. *)
Definition engine_MinNanoTime : Z := (- 9223372036854775806)%Z.
Definition engine_MaxNanoTime : Z := 9223372036854775806%Z.

(** ** Reference definitions for the predicate compiler *)

(** The wire tree of an expression, by recursion on the expression: the
    tree that the compiler is to build, [None] where it is to fail. *)
Fixpoint to_node (e : Expr) : option Node :=
  match e with
  | BinaryExpr op l r =>
      match to_node l, to_node r with
      | Some ln, Some rn =>
          match mapOpToComparison op with
          | Some comp =>
              Some (mkNode NodeTypeComparisonExpression
                           (Some (Node_Comparison_ comp)) [ln; rn])
          | None =>
              if Token_eqb op AND then
                Some (mkNode NodeTypeLogicalExpression
                             (Some (Node_Logical_ LogicalAnd)) [ln; rn])
              else if Token_eqb op OR then
                Some (mkNode NodeTypeLogicalExpression
                             (Some (Node_Logical_ LogicalOr)) [ln; rn])
              else None
          end
      | _, _ => None
      end
  | ParenExpr e =>
      match to_node e with
      | Some n => Some (mkNode NodeTypeParenExpression None [n])
      | None => None
      end
  | StringLiteral val => Some (mkNode NodeTypeLiteral (Some (Node_StringValue val)) [])
  | NumberLiteral val => Some (mkNode NodeTypeLiteral (Some (Node_FloatValue val)) [])
  | IntegerLiteral val => Some (mkNode NodeTypeLiteral (Some (Node_IntegerValue val)) [])
  | UnsignedLiteral val => Some (mkNode NodeTypeLiteral (Some (Node_UnsignedValue val)) [])
  | VarRef val => Some (mkNode NodeTypeTagRef (Some (Node_TagRefValue val)) [])
  | Other _ => None
  end.

Definition unsupported_operator (op : Token) : error :=
  ("unsupported operator, " ++ Token_String op)%string.

Definition unsupported_expression : error := "unsupported expression"%string.

(** The first failure of an expression in post-order: left operand, right
    operand, operator. *)
Fixpoint first_error (e : Expr) : option error :=
  match e with
  | BinaryExpr op l r =>
      match first_error l with
      | Some m => Some m
      | None =>
          match first_error r with
          | Some m => Some m
          | None => if supported_op op then None else Some (unsupported_operator op)
          end
      end
  | ParenExpr e => first_error e
  | Other _ => Some unsupported_expression
  | _ => None
  end.

(** The expression [a = 1 AND (b != "x" OR c > 2)] and its wire tree. *)
Definition example_expr : Expr :=
  BinaryExpr AND
    (BinaryExpr EQ (VarRef "a") (IntegerLiteral 1))
    (ParenExpr
       (BinaryExpr OR
          (BinaryExpr NEQ (VarRef "b") (StringLiteral "x"))
          (BinaryExpr GT (VarRef "c") (IntegerLiteral 2)))).

Definition example_tree : Node :=
  Eval cbv in
    match to_node example_expr with
    | Some n => n
    | None => mkNode NodeTypeLiteral None []
    end.

(** The state of the loop before the iteration at index [j = S k]. *)
Definition dedupe_inv (s0 : list string) (k : nat) (st : list string * nat) : Prop :=
  let '(s, i) := st in
  List.length s = List.length s0 /\
  1 <= i <= S k /\
  firstn i s = compact (firstn (S k) s0) /\
  skipn (S k) s = skipn (S k) s0.

(** The inputs on which the merge yields the sorted, deduplicated union: no
    measurement; one measurement whose keys are strictly ascending; two or
    more measurements with at least one key among them. *)
Definition merge_input (keys : list TagKeys) : Prop :=
  match keys with
  | [] => True
  | [k] => StronglySorted str_lt (Keys k)
  | _ => all_keys keys <> []
  end.
(* ================================================================== *)
(** * Part II: the properties *)
(* ================================================================== *)

(** ** The order of strings *)

Lemma str_less_lt (a b : string) : str_less a b = true <-> String_as_OT.lt a b.
Proof.
  unfold str_less, String.ltb. rewrite <- String_as_OT.cmp_lt.
  unfold String_as_OT.cmp. destruct (String.compare a b); split; congruence.
Qed.

Lemma str_less_irrefl (a : string) : str_less a a = false.
Proof.
  destruct (str_less a a) eqn:E; trivial.
  apply str_less_lt in E. exfalso. exact (String_as_OT.lt_not_eq a a E eq_refl).
Qed.

Lemma str_less_trans (a b c : string) :
  str_less a b = true -> str_less b c = true -> str_less a c = true.
Proof.
  rewrite !str_less_lt. apply String_as_OT.lt_trans.
Qed.

Lemma str_less_total (a b : string) :
  str_less a b = false -> str_less b a = false -> a = b.
Proof.
  unfold str_less, String.ltb. rewrite (String.compare_antisym b a).
  destruct (String.compare a b) eqn:E; simpl; try discriminate.
  intros _ _. now apply String.compare_eq_iff.
Qed.

Lemma str_le_refl (a : string) : str_le a a.
Proof. apply str_less_irrefl. Qed.

Lemma str_lt_le (a b : string) : str_lt a b -> str_le a b.
Proof.
  unfold str_lt, str_le. intros H. destruct (str_less b a) eqn:E; trivial.
  rewrite <- (str_less_irrefl a). symmetry. eapply str_less_trans; eauto.
Qed.

Lemma str_le_cases (a b : string) : str_le a b -> a = b \/ str_lt a b.
Proof.
  unfold str_le, str_lt. intros H. destruct (str_less a b) eqn:E; auto.
  left. now apply str_less_total.
Qed.

Lemma str_le_trans (a b c : string) : str_le a b -> str_le b c -> str_le a c.
Proof.
  intros H1 H2. destruct (str_le_cases H1) as [->|L1]; trivial.
  destruct (str_le_cases H2) as [<-|L2]; trivial.
  apply str_lt_le. eapply str_less_trans; eauto.
Qed.

Lemma str_le_lt_trans (a b c : string) : str_le a b -> str_lt b c -> str_lt a c.
Proof.
  intros H1 H2. destruct (str_le_cases H1) as [->|L1]; trivial.
  eapply str_less_trans; eauto.
Qed.

Lemma str_lt_neq (a b : string) : str_lt a b -> a <> b.
Proof.
  intros H ->. unfold str_lt in H. rewrite str_less_irrefl in H. discriminate.
Qed.

Lemma str_not_less_le (a b : string) : str_less a b = false -> str_le b a.
Proof. trivial. Qed.

Lemma str_less_false_true (a b : string) : str_less a b = true -> str_le a b.
Proof. apply str_lt_le. Qed.

(** ** [sort.Strings] sorts *)

Lemma insert_string_perm (x : string) (l : list string) :
  Permutation (x :: l) (insert_string x l).
Proof.
  induction l as [|y t IH]; simpl; auto.
  destruct (str_less y x); auto.
  rewrite perm_swap. now constructor.
Qed.

Lemma sort_Strings_perm (s : list string) : Permutation s (sort_Strings s).
Proof.
  induction s as [|x t IH]; simpl; auto.
  rewrite <- insert_string_perm. now constructor.
Qed.

Lemma insert_string_sorted (x : string) (l : list string) :
  StronglySorted str_le l -> StronglySorted str_le (insert_string x l).
Proof.
  induction 1 as [|y t Hs IH Hy]; simpl.
  - repeat constructor.
  - destruct (str_less y x) eqn:E.
    + constructor; trivial.
      rewrite <- insert_string_perm. constructor; trivial.
      now apply str_less_false_true.
    + constructor. { now constructor. }
      constructor. { exact E. }
      eapply Forall_impl; [|exact Hy]. intros z Hz.
      eapply str_le_trans; [exact E | exact Hz].
Qed.

Lemma sort_Strings_sorted (s : list string) : StronglySorted str_le (sort_Strings s).
Proof.
  induction s as [|x t IH]; simpl; [constructor | now apply insert_string_sorted].
Qed.

Lemma sort_Strings_length (s : list string) :
  List.length (sort_Strings s) = List.length s.
Proof. symmetry. apply Permutation_length, sort_Strings_perm. Qed.

(** ** Slices: indexing, assignment, prefixes *)

Lemma set_index_length (s : list string) (i : nat) (x : string) :
  List.length (set_index s i x) = List.length s.
Proof.
  revert i; induction s as [|h t IH]; intros [|i]; simpl; auto.
Qed.

Lemma set_index_firstn (s : list string) (i : nat) (x : string) :
  firstn i (set_index s i x) = firstn i s.
Proof.
  revert i; induction s as [|h t IH]; intros [|i]; simpl; auto.
  now rewrite IH.
Qed.

Lemma set_index_firstn_S (s : list string) (i : nat) (x : string) :
  i < List.length s -> firstn (S i) (set_index s i x) = firstn i s ++ [x].
Proof.
  revert i; induction s as [|h t IH]; intros [|i] H; simpl in *; try lia.
  - reflexivity.
  - f_equal. apply IH. lia.
Qed.

Lemma set_index_skipn (s : list string) (i k : nat) (x : string) :
  i < k -> skipn k (set_index s i x) = skipn k s.
Proof.
  revert i k; induction s as [|h t IH]; intros [|i] [|k] H; simpl; try lia; auto.
  apply IH. lia.
Qed.

Lemma firstn_snoc (s : list string) (j : nat) :
  j < List.length s -> firstn (S j) s = firstn j s ++ [at_index s j].
Proof.
  unfold at_index.
  revert j; induction s as [|h t IH]; intros [|j] H; simpl in *; try lia; auto.
  f_equal. apply IH. lia.
Qed.

Lemma at_index_skipn (s : list string) (j : nat) :
  at_index s j = hd EmptyString (skipn j s).
Proof.
  unfold at_index.
  revert j; induction s as [|h t IH]; intros [|j]; simpl; auto.
Qed.

Lemma last_at_index (l : list string) :
  l <> [] -> last l EmptyString = at_index l (List.length l - 1).
Proof.
  unfold at_index.
  induction l as [|h t IH]; [congruence|]. intros _.
  destruct t as [|h' t']; [reflexivity|].
  change (last (h :: h' :: t') EmptyString) with (last (h' :: t') EmptyString).
  rewrite IH by congruence. simpl. now rewrite Nat.sub_0_r.
Qed.

Lemma at_index_firstn (s : list string) (i k : nat) :
  k < i -> at_index (firstn i s) k = at_index s k.
Proof.
  unfold at_index.
  revert i k; induction s as [|h t IH]; intros [|i] [|k] H; simpl; try lia; auto.
  apply IH. lia.
Qed.

(** ** The dedupe loop computes [compact] *)

Lemma compact_snoc (l : list string) (x : string) :
  compact (l ++ [x]) = compact_step (compact l) x.
Proof. unfold compact. now rewrite fold_left_app. Qed.

Lemma dedupe_inv_step (s0 : list string) (k : nat) (st : list string * nat) :
  S k < List.length s0 ->
  dedupe_inv s0 k st -> dedupe_inv s0 (S k) (dedupe_step st (S k)).
Proof.
  destruct st as [s i]. intros Hk (Hlen & Hi & Hfst & Hskp).
  assert (Hj : at_index s (S k) = at_index s0 (S k)).
  { now rewrite !at_index_skipn, Hskp. }
  assert (Hlast : last (firstn i s) EmptyString = at_index s (i - 1)).
  { rewrite last_at_index.
    - rewrite length_firstn, Nat.min_l by lia. apply at_index_firstn. lia.
    - intros E. apply (f_equal (@List.length string)) in E.
      rewrite length_firstn, Nat.min_l in E by lia. simpl in E. lia. }
  assert (Hne : firstn i s <> []).
  { intros E. apply (f_equal (@List.length string)) in E.
    rewrite length_firstn, Nat.min_l in E by lia. simpl in E. lia. }
  assert (Hc : compact (firstn (S (S k)) s0)
               = if String.eqb (at_index s (i - 1)) (at_index s (S k))
                 then firstn i s else firstn i s ++ [at_index s (S k)]).
  { rewrite (firstn_snoc s0) by lia. rewrite compact_snoc, <- Hfst.
    unfold compact_step. rewrite Hlast, <- Hj.
    destruct (firstn i s); [congruence | reflexivity]. }
  unfold dedupe_step.
  destruct (String.eqb (at_index s (i - 1)) (at_index s (S k))); simpl negb; cbv iota;
    unfold dedupe_inv; rewrite Hc.
  - repeat split; try lia; auto.
    change (S (S k)) with (1 + S k). rewrite <- !skipn_skipn. now rewrite Hskp.
  - rewrite set_index_length. repeat split; try lia.
    + apply set_index_firstn_S. lia.
    + rewrite set_index_skipn by lia.
      change (S (S k)) with (1 + S k). rewrite <- !skipn_skipn. now rewrite Hskp.
Qed.

Lemma dedupe_inv_iter (s0 : list string) (k : nat) :
  S k <= List.length s0 ->
  dedupe_inv s0 k (fold_left dedupe_step (seq 1 k) (s0, 1)).
Proof.
  induction k as [|k IH]; intros Hk.
  - destruct s0 as [|a t]; simpl in *; [lia|].
    repeat split; lia.
  - rewrite seq_S, fold_left_app. simpl.
    apply dedupe_inv_step; [lia|]. apply IH. lia.
Qed.

(** On a slice that is not empty, the loop leaves [compact s] in the first
    [i] places, and [i] does not exceed the length. *)
Lemma dedupe_loop_compact (s : list string) :
  s <> [] ->
  let '(s', i) := dedupe_loop s in
  i <= List.length s' /\ firstn i s' = compact s.
Proof.
  intros Hne. unfold dedupe_loop.
  assert (Hl : 1 <= List.length s) by (destruct s; simpl; [congruence | lia]).
  pose proof (@dedupe_inv_iter s (List.length s - 1)) as H.
  destruct (fold_left dedupe_step (seq 1 (List.length s - 1)) (s, 1)) as [s' i].
  destruct H as (Hlen & Hi & Hfst & _); [lia|].
  split; [lia|].
  rewrite Hfst. replace (S (List.length s - 1)) with (List.length s) by lia.
  now rewrite firstn_all.
Qed.

(** ** [compact] on a sorted slice *)

Lemma StronglySorted_snoc {A} (R : A -> A -> Prop) (l : list A) (x : A) :
  StronglySorted R (l ++ [x]) <-> StronglySorted R l /\ Forall (fun y => R y x) l.
Proof.
  induction l as [|a t IH]; simpl.
  - split; intros _; repeat constructor.
  - split.
    + intros H. apply StronglySorted_inv in H as [Hs Hf].
      apply IH in Hs as [Hs Hx]. apply Forall_app in Hf as [Hf1 Hf2].
      split; constructor; trivial. now inversion Hf2.
    + intros [H Hx]. apply StronglySorted_inv in H as [Hs Hf].
      inversion Hx; subst. constructor.
      * apply IH. now split.
      * apply Forall_app. split; trivial. now constructor.
Qed.

Lemma in_last (l : list string) (d : string) : l <> [] -> In (last l d) l.
Proof.
  induction l as [|a t IH]; [congruence|]. intros _.
  destruct t as [|b t']; [now left|]. right. apply IH. congruence.
Qed.

Lemma sorted_le_last (l : list string) (z d : string) :
  StronglySorted str_le l -> In z l -> str_le z (last l d).
Proof.
  induction 1 as [|a t Hs IH Ha]; intros Hz; [contradiction|].
  destruct t as [|b t'].
  - destruct Hz as [<-|[]]. apply str_le_refl.
  - change (last (a :: b :: t') d) with (last (b :: t') d).
    destruct Hz as [<-|Hz]; [|now apply IH].
    rewrite Forall_forall in Ha. apply Ha. apply in_last. congruence.
Qed.

Lemma compact_sorted (l : list string) :
  StronglySorted str_le l ->
  StronglySorted str_lt (compact l) /\
  (forall x, In x (compact l) <-> In x l) /\
  last (compact l) EmptyString = last l EmptyString.
Proof.
  induction l as [|x l IH] using rev_ind; intros Hs.
  - repeat split; simpl; auto; constructor.
  - apply StronglySorted_snoc in Hs as [Hs Hx].
    destruct (IH Hs) as (IHs & IHi & IHl). clear IH.
    rewrite compact_snoc, last_last. unfold compact_step.
    destruct (compact l) as [|a c] eqn:E.
    + assert (l = []) as ->.
      { destruct l as [|b t]; trivial. exfalso. apply (IHi b). now left. }
      repeat split; simpl; auto. repeat constructor.
    + rewrite <- E in *.
      assert (Hne : l <> []).
      { intros ->. unfold compact in E. simpl in E. discriminate. }
      assert (Hcne : compact l <> []) by (rewrite E; discriminate).
      assert (Hy : str_le (last l EmptyString) x).
      { rewrite Forall_forall in Hx. apply Hx. now apply in_last. }
      rewrite IHl. destruct (String.eqb_spec (last l EmptyString) x) as [Heq|Hneq].
      * repeat split; trivial.
        -- intros H. apply in_or_app. left. now apply IHi.
        -- intros H. apply in_app_or in H as [H|[<-|[]]]; [now apply IHi|].
           rewrite <- Heq, <- IHl. now apply in_last.
        -- now rewrite IHl.
      * repeat split.
        -- apply StronglySorted_snoc. split; trivial.
           apply Forall_forall. intros z Hz.
           apply str_le_lt_trans with (last l EmptyString).
           ++ apply sorted_le_last; trivial. now apply IHi.
           ++ destruct (str_le_cases Hy); [contradiction | trivial].
        -- intros H. apply in_app_or in H as [H|H]; apply in_or_app; auto.
           left. now apply IHi.
        -- intros H. apply in_app_or in H as [H|H]; apply in_or_app; auto.
           left. now apply IHi.
        -- apply last_last.
Qed.

Lemma sorted_lt_NoDup (l : list string) : StronglySorted str_lt l -> NoDup l.
Proof.
  induction 1 as [|a t Hs IH Ha]; constructor; trivial.
  intros Hin. rewrite Forall_forall in Ha. now apply (str_lt_neq (Ha _ Hin)).
Qed.

(** Two sorted slices with the same elements are the same slice. *)
Lemma sorted_le_unique (l1 l2 : list string) :
  StronglySorted str_le l1 -> StronglySorted str_le l2 ->
  Permutation l1 l2 -> l1 = l2.
Proof.
  intros H1; revert l2. induction H1 as [|a t Hs IH Ha]; intros l2 H2 Hp.
  - now apply Permutation_nil in Hp.
  - destruct H2 as [|b t2 Hs2 Hb].
    + symmetry in Hp. now apply Permutation_nil in Hp.
    + rewrite Forall_forall in Ha, Hb.
      assert (a = b) as <-.
      { assert (Hba : In b (a :: t)) by (rewrite Hp; now left).
        assert (Hab : In a (b :: t2)) by (rewrite <- Hp; now left).
        destruct Hba as [->|Hba]; trivial. destruct Hab as [->|Hab]; trivial.
        apply str_less_total; [apply (Hb _ Hab) | apply (Ha _ Hba)]. }
      f_equal. apply IH; trivial. now apply Permutation_cons_inv in Hp.
Qed.

Lemma sort_Strings_perm_eq (l1 l2 : list string) :
  Permutation l1 l2 -> sort_Strings l1 = sort_Strings l2.
Proof.
  intros Hp. apply sorted_le_unique; try apply sort_Strings_sorted.
  now rewrite <- !sort_Strings_perm.
Qed.

(** ** [MergeTagKeys] *)

Lemma append_all_from (keys : list TagKeys) (acc : list string) :
  fold_left (fun s k => s ++ Keys k) keys acc = acc ++ all_keys keys.
Proof.
  unfold all_keys. revert acc; induction keys as [|k t IH]; intros acc; simpl.
  - now rewrite app_nil_r.
  - now rewrite IH, app_assoc.
Qed.

Lemma append_all_keys (keys : list TagKeys) : append_all keys = all_keys keys.
Proof. apply append_all_from. Qed.

(** The path for two or more measurements, as a function of the keys. *)
Lemma MergeTagKeys_many (k1 k2 : TagKeys) (rest : list TagKeys) :
  MergeTagKeys (k1 :: k2 :: rest) =
  let '(s, i) := dedupe_loop (sort_Strings (all_keys (k1 :: k2 :: rest))) in
  slice_to s i.
Proof. unfold MergeTagKeys. now rewrite append_all_keys. Qed.

Lemma MergeTagKeys_many_compact (k1 k2 : TagKeys) (rest : list TagKeys) :
  all_keys (k1 :: k2 :: rest) <> [] ->
  MergeTagKeys (k1 :: k2 :: rest)
  = Return (compact (sort_Strings (all_keys (k1 :: k2 :: rest)))).
Proof.
  intros Hne. rewrite MergeTagKeys_many.
  assert (Hs : sort_Strings (all_keys (k1 :: k2 :: rest)) <> []).
  { intros E. apply Hne. apply Permutation_nil. rewrite <- E.
    symmetry. apply sort_Strings_perm. }
  pose proof (dedupe_loop_compact Hs) as H.
  destruct (dedupe_loop (sort_Strings (all_keys (k1 :: k2 :: rest)))) as [s i].
  destruct H as [Hi Hf]. unfold slice_to.
  apply Nat.leb_le in Hi. now rewrite Hi, Hf.
Qed.

Lemma merged_compact_sort (keys : list TagKeys) :
  merged keys (compact (sort_Strings (all_keys keys))).
Proof.
  destruct (compact_sorted (sort_Strings_sorted (all_keys keys))) as (Hs & Hi & _).
  split; [trivial|]. split; [now apply sorted_lt_NoDup|].
  apply NoDup_Permutation.
  - now apply sorted_lt_NoDup.
  - apply NoDup_nodup.
  - intros x. rewrite Hi, nodup_In.
    split; apply Permutation_in;
      [symmetry|]; apply sort_Strings_perm.
Qed.

(** C1 (as amended).  On an input with no measurement, with one measurement
    whose key list is strictly ascending, or with two or more measurements
    that have at least one key among them, [MergeTagKeys] returns a slice
    that is sorted ascending, has no duplicates, and is the deduplicated
    union of the input key lists as a multiset. *)
Theorem MergeTagKeys_sorted_union (keys : list TagKeys) :
  merge_input keys ->
  exists r, MergeTagKeys keys = Return r /\ merged keys r.
Proof.
  destruct keys as [|k1 [|k2 rest]]; intros Hin.
  - exists []. split; trivial. repeat split; constructor.
  - exists (Keys k1). split; trivial. simpl in Hin.
    split; trivial. split; [now apply sorted_lt_NoDup|].
    unfold all_keys. simpl. rewrite app_nil_r.
    rewrite nodup_fixed_point; [reflexivity | now apply sorted_lt_NoDup].
  - exists (compact (sort_Strings (all_keys (k1 :: k2 :: rest)))).
    split; [now apply MergeTagKeys_many_compact | apply merged_compact_sort].
Qed.

Lemma MergeTagKeys_sorted_union_witness :
  exists r,
    MergeTagKeys
      [mkTagKeys "maaa" ["aaa"; "bbb"]; mkTagKeys "mbbb" ["bbb"; "eee"; "fff"];
       mkTagKeys "mccc" ["ccc"; "ddd"; "fff"; "ggg"]]%string = Return r /\
    merged
      [mkTagKeys "maaa" ["aaa"; "bbb"]; mkTagKeys "mbbb" ["bbb"; "eee"; "fff"];
       mkTagKeys "mccc" ["ccc"; "ddd"; "fff"; "ggg"]]%string r.
Proof.
  apply MergeTagKeys_sorted_union. simpl. discriminate.
Defined.

(** C1 as stated fails: the key list of a single measurement is returned as
    it is, so of one measurement with the keys ["b"; "a"] the output is not
    sorted. *)
Lemma MergeTagKeys_single_unsorted :
  ~ (exists r,
       MergeTagKeys [mkTagKeys "m" ["b"; "a"]]%string = Return r /\
       merged [mkTagKeys "m" ["b"; "a"]]%string r).
Proof.
  intros (r & Hr & Hs & _). injection Hr as <-. simpl in Hs.
  apply StronglySorted_inv in Hs as [_ Hf]. inversion Hf as [|? ? Hlt _]; subst.
  discriminate Hlt.
Qed.

(** C9.  Of exactly one measurement, [MergeTagKeys] returns the key list of
    that measurement as it is, whatever it holds: nothing is sorted and
    nothing is removed.  This holds of every key list that is not empty (and
    of the empty one). *)
Theorem MergeTagKeys_single (k : TagKeys) :
  Keys k <> [] -> MergeTagKeys [k] = Return (Keys k).
Proof. reflexivity. Qed.

Lemma MergeTagKeys_single_witness :
  MergeTagKeys [mkTagKeys "maaa" ["ccc"; "aaa"; "ccc"]]%string
  = Return ["ccc"; "aaa"; "ccc"]%string.
Proof.
  apply (@MergeTagKeys_single (mkTagKeys "maaa" ["ccc"; "aaa"; "ccc"]%string)).
  simpl. discriminate.
Defined.

Lemma MergeTagKeys_many_empty (keys : list TagKeys) :
  2 <= List.length keys ->
  all_keys keys = [] ->
  MergeTagKeys keys = Panic "slice bounds out of range".
Proof.
  intros Hl He. destruct keys as [|k1 [|k2 rest]]; simpl in Hl; try lia.
  rewrite MergeTagKeys_many, He. reflexivity.
Qed.

(** Two or more measurements without a single key among them: the slice
    expression [s[:1]] is applied to the nil slice, and the merge panics. *)
Theorem MergeTagKeys_no_keys_panics (keys : list TagKeys) :
  2 <= List.length keys ->
  all_keys keys = [] ->
  MergeTagKeys keys = Panic "slice bounds out of range".
Proof. apply MergeTagKeys_many_empty. Qed.

Lemma MergeTagKeys_no_keys_panics_witness :
  MergeTagKeys [mkTagKeys "maaa" []; mkTagKeys "mbbb" []]%string
  = Panic "slice bounds out of range".
Proof.
  apply MergeTagKeys_no_keys_panics; [simpl; lia | reflexivity].
Defined.

(** With two or more measurements the merge never returns an empty slice:
    it returns at least one key or it panics. *)
Theorem MergeTagKeys_many_outcome (keys : list TagKeys) :
  2 <= List.length keys ->
  (all_keys keys <> [] /\
   exists x r, MergeTagKeys keys = Return (x :: r)) \/
  (all_keys keys = [] /\ exists msg, MergeTagKeys keys = Panic msg).
Proof.
  intros Hl. destruct (all_keys keys) as [|a t] eqn:E.
  - right. split; trivial. eexists. now apply MergeTagKeys_many_empty.
  - left. split; [discriminate|].
    destruct keys as [|k1 [|k2 rest]]; simpl in Hl; try lia.
    rewrite MergeTagKeys_many_compact by (rewrite E; discriminate).
    destruct (compact_sorted (sort_Strings_sorted (all_keys (k1 :: k2 :: rest))))
      as (_ & Hi & _).
    destruct (compact (sort_Strings (all_keys (k1 :: k2 :: rest)))) as [|x r] eqn:Ec.
    + exfalso. apply (Hi a). rewrite <- sort_Strings_perm, E. now left.
    + now exists x, r.
Qed.

Lemma MergeTagKeys_many_outcome_witness :
  (all_keys [mkTagKeys "a" ["k"]; mkTagKeys "b" []]%string <> [] /\
   exists x r, MergeTagKeys [mkTagKeys "a" ["k"]; mkTagKeys "b" []]%string
               = Return (x :: r)) \/
  (all_keys [mkTagKeys "a" ["k"]; mkTagKeys "b" []]%string = [] /\
   exists msg, MergeTagKeys [mkTagKeys "a" ["k"]; mkTagKeys "b" []]%string
               = Panic msg).
Proof.
  apply MergeTagKeys_many_outcome. simpl. lia.
Defined.

Lemma all_keys_perm (keys keys' : list TagKeys) :
  Permutation keys keys' -> Permutation (all_keys keys) (all_keys keys').
Proof.
  unfold all_keys. induction 1 as [|k l l' _ IH|k1 k2 l|l1 l2 l3 _ IH1 _ IH2]; simpl.
  - constructor.
  - now apply Permutation_app_head.
  - rewrite !app_assoc. apply Permutation_app_tail, Permutation_app_comm.
  - now transitivity (List.concat (map Keys l2)).
Qed.

(** The order of the measurements does not matter to the merge of two or
    more of them: a permutation of the input has the same outcome. *)
Theorem MergeTagKeys_permutation (keys keys' : list TagKeys) :
  2 <= List.length keys ->
  Permutation keys keys' ->
  MergeTagKeys keys = MergeTagKeys keys'.
Proof.
  intros Hl Hp. pose proof (Permutation_length Hp) as Hl'.
  destruct keys as [|k1 [|k2 rest]]; simpl in Hl; try lia.
  destruct keys' as [|k1' [|k2' rest']]; simpl in Hl'; try lia.
  rewrite !MergeTagKeys_many.
  rewrite (@sort_Strings_perm_eq (all_keys (k1 :: k2 :: rest))
                                 (all_keys (k1' :: k2' :: rest'))); trivial.
  now apply all_keys_perm.
Qed.

Lemma MergeTagKeys_permutation_witness :
  MergeTagKeys [mkTagKeys "ma" ["aaa"; "ddd"]; mkTagKeys "mb" ["ccc"; "ddd"]]%string
  = MergeTagKeys [mkTagKeys "mb" ["ccc"; "ddd"]; mkTagKeys "ma" ["aaa"; "ddd"]]%string.
Proof.
  apply MergeTagKeys_permutation; [simpl; lia | apply perm_swap].
Defined.

(** The in-place dedupe loop computes the function [compact]: on a slice
    that is not empty it stops with a write cursor [i] within the slice and
    with [compact s] in the first [i] places. *)
Theorem dedupe_loop_refines_compact (s : list string) :
  s <> [] ->
  snd (dedupe_loop s) <= List.length (fst (dedupe_loop s)) /\
  firstn (snd (dedupe_loop s)) (fst (dedupe_loop s)) = compact s.
Proof.
  intros Hne. pose proof (dedupe_loop_compact Hne) as H.
  destruct (dedupe_loop s) as [s' i]. simpl. tauto.
Qed.

(** ** Sorting routines that meet the contract of [sort.Sort] *)

Section SortFacts.
Variable A : Type.
Variable less : A -> A -> bool.
Hypothesis less_sw : strict_weak less.

Lemma less_asym (a b : A) : less a b = true -> less b a = false.
Proof.
  destruct less_sw as (Hirr & Htr & _). intros H.
  destruct (less b a) eqn:E; trivial.
  rewrite <- (Hirr a). symmetry. now apply Htr with b.
Qed.

Lemma insert_right_perm (x : A) (l : list A) :
  Permutation (x :: l) (insert_right less x l).
Proof.
  induction l as [|y t IH]; simpl; auto.
  destruct (less x y); auto.
  rewrite perm_swap. now constructor.
Qed.

Lemma insert_right_sorted (x : A) (l : list A) :
  StronglySorted (fun a b => less a b = false) l ->
  StronglySorted (fun a b => less a b = false) (insert_right less x l).
Proof.
  destruct less_sw as (_ & _ & Hneg).
  induction 1 as [|y t Hs IH Hy]; simpl.
  - repeat constructor.
  - destruct (less x y) eqn:E.
    + constructor; trivial.
      rewrite <- insert_right_perm. constructor; trivial. now apply less_asym.
    + constructor. { now constructor. }
      constructor; trivial.
      eapply Forall_impl; [|exact Hy]. intros z Hz. now apply Hneg with y.
Qed.

Lemma insert_fold_perm (l acc : list A) :
  Permutation (acc ++ l) (fold_left (fun r x => insert_right less x r) l acc).
Proof.
  revert acc; induction l as [|x t IH]; intros acc; simpl.
  - now rewrite app_nil_r.
  - rewrite <- IH, <- insert_right_perm. symmetry. apply Permutation_middle.
Qed.

Lemma insert_fold_sorted (l acc : list A) :
  StronglySorted (fun a b => less a b = false) acc ->
  StronglySorted (fun a b => less a b = false)
                 (fold_left (fun r x => insert_right less x r) l acc).
Proof.
  revert acc; induction l as [|x t IH]; intros acc Hs; simpl; trivial.
  apply IH. now apply insert_right_sorted.
Qed.

Lemma StronglySorted_rev (R : A -> A -> Prop) (l : list A) :
  StronglySorted R l -> StronglySorted (fun a b => R b a) (rev l).
Proof.
  induction 1 as [|a t Hs IH Ha]; simpl; [constructor|].
  apply StronglySorted_snoc. split; trivial.
  apply Forall_rev. exact Ha.
Qed.

Lemma insertionSort_perm (l : list A) : Permutation l (insertionSort less l).
Proof.
  unfold insertionSort. rewrite <- Permutation_rev.
  exact (insert_fold_perm l []).
Qed.

Lemma insertionSort_sorted (l : list A) : sorted_by less (insertionSort less l).
Proof.
  unfold insertionSort, sorted_by.
  apply (StronglySorted_rev (R := fun a b => less a b = false)).
  apply insert_fold_sorted. constructor.
Qed.

Lemma skipn_nth_error (l : list A) (k : nat) (v : A) :
  nth_error l k = Some v -> skipn k l = v :: skipn (S k) l.
Proof.
  revert k; induction l as [|h t IH]; intros [|k] H; simpl in *; try discriminate.
  - now injection H as ->.
  - now apply IH.
Qed.

Lemma swap_if_less_perm (l : list A) (i : nat) :
  6 <= i -> Permutation l (swap_if_less less l i).
Proof.
  intros Hi. unfold swap_if_less.
  destruct (nth_error l i) as [x|] eqn:Ex; trivial.
  destruct (nth_error l (i - 6)) as [y|] eqn:Ey; trivial.
  destruct (less x y); trivial.
  rewrite <- (firstn_skipn (i - 6) l) at 1.
  apply Permutation_app_head.
  rewrite (skipn_nth_error _ _ Ey).
  replace (S (i - 6)) with (i - 5) by lia.
  rewrite <- (firstn_skipn 5 (skipn (i - 5) l)) at 1.
  rewrite skipn_skipn. replace (5 + (i - 5)) with i by lia.
  rewrite (skipn_nth_error _ _ Ex).
  set (B := firstn 5 (skipn (i - 5) l)). set (C := skipn (S i) l).
  rewrite <- (Permutation_middle B C x), <- (Permutation_middle B C y).
  apply perm_swap.
Qed.

Lemma gap6_fold_perm (js : list nat) (l : list A) :
  Forall (fun j => 6 <= j) js ->
  Permutation l (fold_left (swap_if_less less) js l).
Proof.
  intros Hjs; revert l. induction Hjs as [|j js Hj _ IH]; intros l; simpl; trivial.
  rewrite <- IH. now apply swap_if_less_perm.
Qed.

Lemma gap6_pass_perm (l : list A) : Permutation l (gap6_pass less l).
Proof.
  apply gap6_fold_perm. apply Forall_forall. intros j Hj.
  apply in_seq in Hj. lia.
Qed.
End SortFacts.

Lemma insertionSort_contract (A : Type) : sort_contract (@insertionSort A).
Proof.
  intros less l Hsw. split;
    [apply insertionSort_perm | now apply insertionSort_sorted].
Qed.

Lemma sort_small_contract (A : Type) : sort_contract (@sort_small A).
Proof.
  intros less l Hsw. unfold sort_small.
  destruct (List.length l <=? 1) eqn:E.
  - split; trivial. apply Nat.leb_le in E.
    destruct l as [|a [|b t]]; simpl in E; try lia; repeat constructor.
  - split.
    + rewrite <- insertionSort_perm. apply gap6_pass_perm.
    + now apply insertionSort_sorted.
Qed.

Lemma Less_strict_weak : strict_weak ShardGroupInfos_Less.
Proof.
  unfold ShardGroupInfos_Less. repeat split; intros;
    rewrite ?Z.ltb_lt, ?Z.ltb_ge in *; lia.
Qed.

Lemma Reverse_strict_weak : strict_weak (sort_Reverse ShardGroupInfos_Less).
Proof.
  unfold sort_Reverse, ShardGroupInfos_Less. repeat split; intros;
    rewrite ?Z.ltb_lt, ?Z.ltb_ge in *; lia.
Qed.

(** ** The store *)

Lemma StronglySorted_weaken {A} (R S : A -> A -> Prop) (l : list A) :
  (forall a b, R a b -> S a b) -> StronglySorted R l -> StronglySorted S l.
Proof.
  intros HRS. induction 1 as [|a t Hs IH Ha]; constructor; trivial.
  eapply Forall_impl; [|exact Ha]. auto.
Qed.

Lemma append_shards (l : list ShardInfo) (acc : list Z) :
  fold_left (fun ids si => ids ++ [ShardID si]) l acc = acc ++ map ShardID l.
Proof.
  revert acc; induction l as [|si t IH]; intros acc; simpl.
  - now rewrite app_nil_r.
  - now rewrite IH, <- app_assoc.
Qed.

Lemma append_groups (groups : list ShardGroupInfo) (acc : list Z) :
  fold_left
    (fun ids g => fold_left (fun ids si => ids ++ [ShardID si]) (Shards g) ids)
    groups acc
  = acc ++ shard_ids groups.
Proof.
  unfold shard_ids. revert acc; induction groups as [|g t IH]; intros acc; simpl.
  - now rewrite app_nil_r.
  - now rewrite IH, append_shards, app_assoc.
Qed.

Section StoreFacts.
Variables Context Shard Aggregate ReadTagKeyValuesRequest : Type.
Variables seriesCursor indexSeriesCursor : Type.
Variable asSeriesCursor : indexSeriesCursor -> seriesCursor.
Variables MinNanoTime MaxNanoTime : Z.
Variable sort_Sort :
  (ShardGroupInfo -> ShardGroupInfo -> bool) -> list ShardGroupInfo -> list ShardGroupInfo.



(** [validateArgs] as a function of its lookups. *)
Lemma validateArgs_eq
    (s : Store Context Shard Aggregate seriesCursor indexSeriesCursor)
    (database : string) (start end_ : Z) :
  validateArgs MinNanoTime MaxNanoTime s database start end_ =
  (match Database (MetaClient s) (database_part database) with
   | None => (EmptyString, EmptyString, 0%Z, 0%Z, Some "no database"%string)
   | Some di =>
       let rp := if String.eqb (policy_part database) EmptyString
                 then DefaultRetentionPolicy di else policy_part database in
       match RetentionPolicy di rp with
       | None => (EmptyString, EmptyString, 0%Z, 0%Z,
                  Some "invalid retention policy"%string)
       | Some _ => (database_part database, rp, norm_start MinNanoTime start, norm_end MaxNanoTime end_, None)
       end
   end,
   [LogInfo "metaclient check" (database_part database);
    CallDatabase (database_part database)]).
Proof.
  unfold validateArgs, database_part, policy_part, bind, emit, ret,
    norm_start, norm_end.
  destruct (IndexByte database "/" >? -1)%Z; simpl;
    destruct (Database (MetaClient s) _) as [di|]; simpl; trivial;
    destruct (RetentionPolicy di _); reflexivity.
Qed.

Lemma validateArgs_success
    (s : Store Context Shard Aggregate seriesCursor indexSeriesCursor)
    (database : string) (start end_ : Z)
    (db rp : string) (st en : Z) (tr : list Event) :
  validateArgs MinNanoTime MaxNanoTime s database start end_ = (db, rp, st, en, None, tr) ->
  db = database_part database /\ st = norm_start MinNanoTime start /\ en = norm_end MaxNanoTime end_.
Proof.
  rewrite validateArgs_eq.
  destruct (Database (MetaClient s) _) as [di|]; [|discriminate].
  cbv zeta. destruct (RetentionPolicy di _); [|discriminate].
  intros H. injection H as <- <- <- <- <-. auto.
Qed.

(** [findShardIDs] as a function of the answer of the meta client. *)
Lemma findShardIDs_eq
    (s : Store Context Shard Aggregate seriesCursor indexSeriesCursor)
    (database rp : string) (desc : bool)
    (start end_ : Z) :
  findShardIDs sort_Sort s database rp desc start end_ =
  (match snd (ShardGroupsByTimeRange (MetaClient s) database rp start end_) with
   | Some e => ([], Some e)
   | None =>
       match fst (ShardGroupsByTimeRange (MetaClient s) database rp start end_) with
       | [] => ([], None)
       | groups =>
           (shard_ids (sort_Sort (if desc then sort_Reverse ShardGroupInfos_Less
                                  else ShardGroupInfos_Less) groups), None)
       end
   end,
   [CallShardGroupsByTimeRange database rp start end_]).
Proof.
  unfold findShardIDs, bind, emit, ret.
  destruct (ShardGroupsByTimeRange (MetaClient s) database rp start end_)
    as [groups [e|]]; [reflexivity|].
  destruct groups as [|g t]; [reflexivity|].
  cbn [List.length Nat.eqb]. rewrite append_groups.
  destruct desc; reflexivity.
Qed.

(** [Read] as a function of the outcomes of its steps. *)
Lemma Read_validate_error
    (s : Store Context Shard Aggregate seriesCursor indexSeriesCursor)
    (ctx : Context) (req : ReadRequest Aggregate)
    (db rp : string) (st en : Z) (e : error) (tr : list Event) :
  validateArgs MinNanoTime MaxNanoTime s (RR_Database req) (Start (RR_TimestampRange req))
                (End_ (RR_TimestampRange req)) = (db, rp, st, en, Some e, tr) ->
  Read asSeriesCursor MinNanoTime MaxNanoTime sort_Sort s ctx req = (None, Some e, tr).
Proof.
  intros H. unfold Read, bind. rewrite H. cbn. now rewrite app_nil_r.
Qed.

Lemma Read_find_error
    (s : Store Context Shard Aggregate seriesCursor indexSeriesCursor)
    (ctx : Context) (req : ReadRequest Aggregate)
    (db rp : string) (st en : Z) (t1 t2 : list Event) (ids : list Z) (e : error) :
  validateArgs MinNanoTime MaxNanoTime s (RR_Database req) (Start (RR_TimestampRange req))
                (End_ (RR_TimestampRange req)) = (db, rp, st, en, None, t1) ->
  findShardIDs sort_Sort s db rp (RR_Descending req) st en = (ids, Some e, t2) ->
  Read asSeriesCursor MinNanoTime MaxNanoTime sort_Sort s ctx req = (None, Some e, t1 ++ t2).
Proof.
  intros H1 H2. unfold Read, bind. rewrite H1, H2. cbn. now rewrite app_nil_r.
Qed.

Lemma Read_cursor
    (s : Store Context Shard Aggregate seriesCursor indexSeriesCursor)
    (ctx : Context) (req : ReadRequest Aggregate)
    (db rp : string) (st en : Z) (t1 t2 : list Event) (ids : list Z) :
  validateArgs MinNanoTime MaxNanoTime s (RR_Database req) (Start (RR_TimestampRange req))
                (End_ (RR_TimestampRange req)) = (db, rp, st, en, None, t1) ->
  findShardIDs sort_Sort s db rp (RR_Descending req) st en = (ids, None, t2) ->
  Read asSeriesCursor MinNanoTime MaxNanoTime sort_Sort s ctx req =
  (match snd (newIndexSeriesCursor (Cursors s) ctx req (tsdb_Shards (TSDBStore s) ids)),
         fst (newIndexSeriesCursor (Cursors s) ctx req (tsdb_Shards (TSDBStore s) ids))
   with
   | Some e, _ => (None, Some e)
   | None, None => (None, None)
   | None, Some ic =>
       let cur := asSeriesCursor ic in
       let cur :=
         if (0 <? Z.of_nat (List.length (RR_Grouping req)))%Z
         then newGroupSeriesCursor (Cursors s) ctx cur (RR_Grouping req)
         else cur in
       let cur :=
         if ((RR_SeriesLimit req >? 0) || (RR_SeriesOffset req >? 0))%Z
         then newLimitSeriesCursor (Cursors s) ctx cur (RR_SeriesLimit req)
                                   (RR_SeriesOffset req)
         else cur in
       (Some {| rs_req := {| rr_ctx := ctx; rr_start := st; rr_end := en;
                             rr_asc := negb (RR_Descending req);
                             rr_limit := RR_PointsLimit req;
                             rr_aggregate := RR_Aggregate req |};
                rs_cur := cur |}, None)
   end,
   t1 ++ t2 ++ [CallShards ids; CallNewIndexSeriesCursor]
      ++ match newIndexSeriesCursor (Cursors s) ctx req (tsdb_Shards (TSDBStore s) ids)
         with
         | (Some _, None) => cursor_calls req
         | _ => []
         end).
Proof.
  intros H1 H2. unfold Read, bind, emit, ret, cursor_calls. rewrite H1, H2. cbn.
  destruct (newIndexSeriesCursor (Cursors s) ctx req (tsdb_Shards (TSDBStore s) ids))
    as [[ic|] [e|]]; cbn; try reflexivity.
  destruct (0 <? Z.of_nat (List.length (RR_Grouping req)))%Z;
    destruct ((RR_SeriesLimit req >? 0) || (RR_SeriesOffset req >? 0))%Z;
    cbn; reflexivity.
Qed.

(** C3 (as amended).  [validateArgs] does not compare the bounds: whether it
    fails, and with which error, does not depend on the start and the end
    (there is no failure for an end before the start).  When it succeeds,
    with a minimum that is not positive and not above the maximum, the
    returned start does not exceed the returned end exactly when the start
    given is not positive, or the end given is not positive and the start
    is at most the maximum, or the start is positive and at most the end. *)
Theorem validateArgs_range
    (s : Store Context Shard Aggregate seriesCursor indexSeriesCursor)
    (database : string) (start end_ : Z)
    (db rp : string) (st en : Z) (tr : list Event) :
  (MinNanoTime <= 0)%Z -> (MinNanoTime <= MaxNanoTime)%Z ->
  validateArgs MinNanoTime MaxNanoTime s database start end_ = (db, rp, st, en, None, tr) ->
  (forall start' end', snd (fst (validateArgs MinNanoTime MaxNanoTime s database start' end')) = None) /\
  ((st <= en)%Z <->
   (start <= 0 \/ (end_ <= 0 /\ start <= MaxNanoTime) \/ (0 < start <= end_))%Z).
Proof.
  intros Hmin Hmm H. split.
  - intros start' end'. rewrite validateArgs_eq in H |- *.
    destruct (Database (MetaClient s) _) as [di|]; [|discriminate].
    cbv zeta in *. destruct (RetentionPolicy di _); [reflexivity | discriminate].
  - apply validateArgs_success in H as (_ & -> & ->).
    unfold norm_start, norm_end.
    destruct (Z.leb_spec start 0), (Z.leb_spec end_ 0); lia.
Qed.

(** C6.  When [validateArgs] reaches the substitution of the bounds (the
    database and the retention policy were found, so that it returns no
    error), a start that is not positive is replaced by the minimum
    nanosecond timestamp, an end that is not positive by the maximum, and a
    positive bound is returned as it was given. *)
Theorem validateArgs_normalizes
    (s : Store Context Shard Aggregate seriesCursor indexSeriesCursor)
    (database : string) (start end_ : Z)
    (db rp : string) (st en : Z) (tr : list Event) :
  validateArgs MinNanoTime MaxNanoTime s database start end_ = (db, rp, st, en, None, tr) ->
  ((start <= 0)%Z -> st = MinNanoTime) /\ ((0 < start)%Z -> st = start) /\
  ((end_ <= 0)%Z -> en = MaxNanoTime) /\ ((0 < end_)%Z -> en = end_).
Proof.
  intros H. apply validateArgs_success in H as (_ & -> & ->).
  unfold norm_start, norm_end.
  destruct (Z.leb_spec start 0), (Z.leb_spec end_ 0); repeat split; intros; lia.
Qed.

(** C8.  When the meta client does not know the database named in the
    request, [validateArgs] fails with the error "no database", [Read]
    returns that error without a result set, and the calls made on the way
    are the log line and the lookup of the database: no lookup of shard
    groups is made. *)
Theorem Read_unknown_database
    (s : Store Context Shard Aggregate seriesCursor indexSeriesCursor)
    (ctx : Context)
    (req : ReadRequest Aggregate) :
  Database (MetaClient s) (database_part (RR_Database req)) = None ->
  snd (fst (validateArgs MinNanoTime MaxNanoTime s (RR_Database req) (Start (RR_TimestampRange req))
                          (End_ (RR_TimestampRange req))))
    = Some "no database"%string /\
  fst (Read asSeriesCursor MinNanoTime MaxNanoTime sort_Sort s ctx req) = (None, Some "no database"%string) /\
  existsb is_shard_group_lookup (snd (Read asSeriesCursor MinNanoTime MaxNanoTime sort_Sort s ctx req)) = false.
Proof.
  intros H.
  pose proof (validateArgs_eq s (RR_Database req) (Start (RR_TimestampRange req))
                              (End_ (RR_TimestampRange req))) as Hv.
  rewrite H in Hv. erewrite Read_validate_error by exact Hv. rewrite Hv. auto.
Qed.

(** C5.  When the arguments resolve and the shards are found, and
    [newIndexSeriesCursor] yields no cursor and no error, [Read] returns no
    result set and no error.  The outcome differs from that of a failed
    resolution, which carries the error of [validateArgs] or of
    [findShardIDs]. *)
Theorem Read_no_series
    (s : Store Context Shard Aggregate seriesCursor indexSeriesCursor)
    (ctx : Context) (req : ReadRequest Aggregate)
    (db rp : string) (st en : Z) (t1 t2 : list Event) (ids : list Z) :
  validateArgs MinNanoTime MaxNanoTime s (RR_Database req) (Start (RR_TimestampRange req))
                (End_ (RR_TimestampRange req)) = (db, rp, st, en, None, t1) ->
  findShardIDs sort_Sort s db rp (RR_Descending req) st en = (ids, None, t2) ->
  newIndexSeriesCursor (Cursors s) ctx req (tsdb_Shards (TSDBStore s) ids)
    = (None, None) ->
  fst (Read asSeriesCursor MinNanoTime MaxNanoTime sort_Sort s ctx req) = (None, None) /\
  (forall req' db' rp' st' en' e tr,
      validateArgs MinNanoTime MaxNanoTime s (RR_Database req') (Start (RR_TimestampRange req'))
                    (End_ (RR_TimestampRange req')) = (db', rp', st', en', Some e, tr) ->
      fst (Read asSeriesCursor MinNanoTime MaxNanoTime sort_Sort s ctx req') = (None, Some e)) /\
  (forall req' db' rp' st' en' tr ids' e tr',
      validateArgs MinNanoTime MaxNanoTime s (RR_Database req') (Start (RR_TimestampRange req'))
                    (End_ (RR_TimestampRange req')) = (db', rp', st', en', None, tr) ->
      findShardIDs sort_Sort s db' rp' (RR_Descending req') st' en' = (ids', Some e, tr') ->
      fst (Read asSeriesCursor MinNanoTime MaxNanoTime sort_Sort s ctx req') = (None, Some e)).
Proof.
  intros H1 H2 H3. split; [|split].
  - erewrite Read_cursor by eassumption. rewrite H3. reflexivity.
  - intros * Hv. now erewrite Read_validate_error by exact Hv.
  - intros * Hv Hf. now erewrite Read_find_error by eassumption.
Qed.

(** C10.  [ReadTagKeyValues] returns no result and no error for every
    request, and calls no collaborator. *)
Theorem ReadTagKeyValues_nil
    (s : Store Context Shard Aggregate seriesCursor indexSeriesCursor)
    (ctx : Context)
    (req : ReadTagKeyValuesRequest) :
  ReadTagKeyValues s ctx req = (None, None, []).
Proof. reflexivity. Qed.

(** C4 (as amended).  With [sort.Sort] any routine that sorts (stable or
    not), [findShardIDs] lists the groups that the meta client returned in
    the order of their start times, non-decreasing when [desc] is false and
    non-increasing when it is true, and returns their shards group after
    group, each group's shards in their stored order.  The order among
    groups of equal start time is that of the sorting routine. *)
Theorem findShardIDs_order
    (s : Store Context Shard Aggregate seriesCursor indexSeriesCursor)
    (database rp : string) (desc : bool)
    (start end_ : Z) (groups : list ShardGroupInfo) :
  sort_contract sort_Sort ->
  ShardGroupsByTimeRange (MetaClient s) database rp start end_ = (groups, None) ->
  exists sorted,
    Permutation groups sorted /\
    (if desc then descending_start sorted else ascending_start sorted) /\
    fst (findShardIDs sort_Sort s database rp desc start end_) = (shard_ids sorted, None).
Proof.
  intros Hc Hg. rewrite findShardIDs_eq, Hg. cbn [fst snd].
  destruct groups as [|g t].
  - exists []. repeat split; trivial. destruct desc; constructor.
  - set (gs := g :: t).
    exists (sort_Sort (if desc then sort_Reverse ShardGroupInfos_Less
                       else ShardGroupInfos_Less) gs).
    destruct desc.
    + destruct (Hc _ gs Reverse_strict_weak) as [Hp Hs]. repeat split; trivial.
      eapply StronglySorted_weaken; [|exact Hs].
      unfold sort_Reverse, ShardGroupInfos_Less. intros a b H.
      apply Z.ltb_ge in H. exact H.
    + destruct (Hc _ gs Less_strict_weak) as [Hp Hs]. repeat split; trivial.
      eapply StronglySorted_weaken; [|exact Hs].
      unfold ShardGroupInfos_Less. intros a b H.
      apply Z.ltb_ge in H. exact H.
Qed.
End StoreFacts.

(** *** The store on the example *)

Lemma validateArgs_range_witness :
  (forall start' end',
      snd (fst (validateArgs engine_MinNanoTime engine_MaxNanoTime example_store
                             "db" start' end')) = None) /\
  ((engine_MinNanoTime <= 7)%Z <->
   (0 <= 0 \/ (7 <= 0 /\ 0 <= engine_MaxNanoTime) \/ (0 < 0 <= 7))%Z).
Proof.
  apply (@validateArgs_range unit unit unit unit unit
           engine_MinNanoTime engine_MaxNanoTime example_store "db" 0 7
           "db" "autogen" engine_MinNanoTime 7
           [LogInfo "metaclient check" "db"; CallDatabase "db"]).
  - unfold engine_MinNanoTime. lia.
  - unfold engine_MinNanoTime, engine_MaxNanoTime. lia.
  - reflexivity.
Defined.

(** C3 as stated fails: with the start 10 and the end 5 on a known database,
    [validateArgs] succeeds and returns the start 10 and the end 5. *)
Lemma validateArgs_accepts_end_before_start :
  fst (validateArgs engine_MinNanoTime engine_MaxNanoTime example_store "db" 10 5)
    = ("db"%string, "autogen"%string, 10%Z, 5%Z, None) /\
  ~ (10 <= 5)%Z.
Proof. split; [reflexivity | lia]. Qed.

Lemma validateArgs_normalizes_witness :
  ((0 <= 0)%Z -> engine_MinNanoTime = engine_MinNanoTime) /\
  ((0 < 0)%Z -> engine_MinNanoTime = 0%Z) /\
  ((7 <= 0)%Z -> 7%Z = engine_MaxNanoTime) /\
  ((0 < 7)%Z -> 7%Z = 7%Z).
Proof.
  apply (@validateArgs_normalizes unit unit unit unit unit
           engine_MinNanoTime engine_MaxNanoTime example_store "db" 0 7
           "db" "autogen" engine_MinNanoTime 7
           [LogInfo "metaclient check" "db"; CallDatabase "db"]).
  reflexivity.
Defined.

Lemma Read_unknown_database_witness :
  snd (fst (validateArgs engine_MinNanoTime engine_MaxNanoTime example_store
                         "nope/autogen" 0 0)) = Some "no database"%string /\
  fst (Read (fun c : unit => c) engine_MinNanoTime engine_MaxNanoTime
            (@insertionSort ShardGroupInfo) example_store tt
            (example_request "nope/autogen" 0 0))
    = (None, Some "no database"%string) /\
  existsb is_shard_group_lookup
    (snd (Read (fun c : unit => c) engine_MinNanoTime engine_MaxNanoTime
               (@insertionSort ShardGroupInfo) example_store tt
               (example_request "nope/autogen" 0 0))) = false.
Proof.
  apply (@Read_unknown_database unit unit unit unit unit (fun c : unit => c)
           engine_MinNanoTime engine_MaxNanoTime (@insertionSort ShardGroupInfo)
           example_store tt (example_request "nope/autogen" 0 0)).
  reflexivity.
Defined.

Lemma Read_no_series_witness :
  fst (Read (fun c : unit => c) engine_MinNanoTime engine_MaxNanoTime
            (@insertionSort ShardGroupInfo) example_store tt
            (example_request "db" 0 0)) = (None, None).
Proof.
  apply (@Read_no_series unit unit unit unit unit (fun c : unit => c)
           engine_MinNanoTime engine_MaxNanoTime (@insertionSort ShardGroupInfo)
           example_store tt (example_request "db" 0 0)
           "db" "autogen" engine_MinNanoTime engine_MaxNanoTime
           [LogInfo "metaclient check" "db"; CallDatabase "db"]
           [CallShardGroupsByTimeRange "db" "autogen"
              engine_MinNanoTime engine_MaxNanoTime]
           [7; 1; 2; 3; 4; 5; 6]%Z); reflexivity.
Defined.

Lemma findShardIDs_order_witness :
  exists sorted,
    Permutation example_groups sorted /\
    ascending_start sorted /\
    fst (findShardIDs (@insertionSort ShardGroupInfo) example_store
                      "db" "autogen" false 1 10) = (shard_ids sorted, None).
Proof.
  apply (@findShardIDs_order unit unit unit unit unit (@insertionSort ShardGroupInfo)
           example_store "db" "autogen" false 1 10 example_groups).
  - apply insertionSort_contract.
  - reflexivity.
Defined.

(** C4 as stated fails on the order of ties.  The routine that [sort.Sort] of
    Go 1.18 and before runs on a slice of seven elements sorts, and it moves
    the first of the six groups that start at time 5 behind the other five:
    the meta client returns the shards in the order 1 to 7, a stable sort
    would return 7, 1, 2, 3, 4, 5, 6, and [findShardIDs] returns
    7, 2, 3, 4, 5, 6, 1. *)
Lemma findShardIDs_reorders_ties :
  sort_contract (@sort_small ShardGroupInfo) /\
  map StartTime example_groups = [5; 5; 5; 5; 5; 5; 1]%Z /\
  shard_ids example_groups = [1; 2; 3; 4; 5; 6; 7]%Z /\
  fst (findShardIDs (@insertionSort ShardGroupInfo) example_store
                    "db" "autogen" false 1 10) = ([7; 1; 2; 3; 4; 5; 6]%Z, None) /\
  fst (findShardIDs (@sort_small ShardGroupInfo) example_store
                    "db" "autogen" false 1 10) = ([7; 2; 3; 4; 5; 6; 1]%Z, None).
Proof.
  split; [apply sort_small_contract|]. repeat split; reflexivity.
Qed.

(** ** The predicate compiler *)

Lemma pop_push (v : exprToNodeVisitor) (n : Node) : pop (push v n) = Return (n, v).
Proof.
  destruct v as [st e]. unfold pop, push. cbn [nodes err].
  rewrite length_app, rev_app_distr, removelast_last. cbn [List.length rev app].
  replace (List.length st + 1 <? 1) with false; trivial.
  symmetry. apply Nat.ltb_ge. lia.
Qed.

Lemma pop2_push_push (v : exprToNodeVisitor) (l r : Node) :
  pop2 (push (push v l) r) = Return (l, r, v).
Proof.
  destruct v as [st e]. unfold pop2, push. cbn [nodes err].
  rewrite !length_app, !rev_app_distr, !removelast_last. cbn [List.length rev app].
  replace (List.length st + 1 + 1 <? 2) with false; trivial.
  symmetry. apply Nat.ltb_ge. lia.
Qed.

Lemma push_nodes (st : list Node) (e : option error) (n : Node) :
  push (mkVisitor st e) n = mkVisitor (st ++ [n]) e.
Proof. reflexivity. Qed.

(** The run of [Visit] from a stack [st] with no error recorded: on an
    expression that has a wire tree it pushes the tree; on another it stops
    at the first failure, with the stack it was given at the bottom. *)
Lemma Visit_spec (e : Expr) (st : list Node) :
  match to_node e with
  | Some n =>
      Visit e (mkVisitor st None) = Return (mkVisitor (st ++ [n]) None) /\
      first_error e = None
  | None =>
      exists junk m,
        Visit e (mkVisitor st None) = Return (mkVisitor (st ++ junk) (Some m)) /\
        first_error e = Some m
  end.
Proof.
  revert st. induction e as [op l IHl r IHr|e IH| | | | | |]; intros st;
    try (split; reflexivity).
  - cbn [Visit to_node first_error]. unfold failed at 1. cbn [err].
    specialize (IHl st). destruct (to_node l) as [ln|].
    + destruct IHl as [-> ->]. cbn [go_bind]. unfold failed at 1. cbn [err].
      specialize (IHr (st ++ [ln])). destruct (to_node r) as [rn|].
      * destruct IHr as [-> ->]. cbn [go_bind]. unfold failed. cbn [err].
        rewrite <- !push_nodes, pop2_push_push. unfold supported_op.
        destruct (mapOpToComparison op) as [comp|].
        -- cbn [go_bind]. split; reflexivity.
        -- destruct (Token_eqb op AND) eqn:Ea; cbn [orb go_bind].
           ++ split; reflexivity.
           ++ destruct (Token_eqb op OR); cbn [go_bind].
              ** split; reflexivity.
              ** exists [ln; rn], (unsupported_operator op). split; trivial.
                 cbn [push nodes err]. now rewrite <- app_assoc.
      * destruct IHr as (junk & m & -> & ->). cbn [go_bind]. unfold failed. cbn [err].
        exists (ln :: junk), m. split; trivial. now rewrite <- app_assoc.
    + destruct IHl as (junk & m & -> & ->). cbn [go_bind]. unfold failed. cbn [err].
      now exists junk, m.
  - cbn [Visit to_node first_error]. specialize (IH st).
    destruct (to_node e) as [n|].
    + destruct IH as [-> ->]. cbn [go_bind]. unfold failed. cbn [err].
      rewrite <- push_nodes, pop_push. cbn [go_bind]. split; reflexivity.
    + destruct IH as (junk & m & -> & ->). cbn [go_bind]. unfold failed. cbn [err].
      now exists junk, m.
  - cbn [to_node]. exists [], unsupported_expression. rewrite app_nil_r.
    split; reflexivity.
Qed.

Lemma to_node_arity (e : Expr) (n : Node) : to_node e = Some n -> arity_ok n = true.
Proof.
  revert n. induction e as [op l IHl r IHr|e IH| | | | | |]; intros n H;
    cbn [to_node] in H; try (injection H as <-; reflexivity); try discriminate.
  - destruct (to_node l) as [ln|]; [|discriminate].
    destruct (to_node r) as [rn|]; [|discriminate].
    specialize (IHl _ eq_refl). specialize (IHr _ eq_refl).
    destruct (mapOpToComparison op);
      [|destruct (Token_eqb op AND); [|destruct (Token_eqb op OR); [|discriminate]]];
      injection H as <-; cbn; now rewrite IHl, IHr.
  - destruct (to_node e) as [m|]; [|discriminate].
    specialize (IH _ eq_refl). injection H as <-. cbn. now rewrite IH.
Qed.

Lemma first_error_to_node (e : Expr) : first_error e = None <-> to_node e <> None.
Proof.
  pose proof (Visit_spec e []) as H. destruct (to_node e) as [n|].
  - destruct H as [_ ->]. split; congruence.
  - destruct H as (junk & m & _ & ->). split; congruence.
Qed.

(** C2.  When the compiler succeeds on an expression, that is, it returns
    with no error recorded, the stack holds exactly one node, the root; the
    root is the wire tree of the expression, whose comparison and logical
    nodes have the two children [left; right], and in the root and below it
    each comparison or logical node has two children, each parenthesization
    node has one, and each literal or tag reference has none. *)
Theorem compile_root_arity (e : Expr) (v : exprToNodeVisitor) :
  compile e = Return v ->
  Err v = None ->
  exists root,
    nodes v = [root] /\ to_node e = Some root /\ arity_ok root = true.
Proof.
  unfold compile, Walk, Err. intros Hc He.
  pose proof (Visit_spec e []) as H.
  destruct (to_node e) as [n|] eqn:En.
  - destruct H as [H _]. rewrite H in Hc. injection Hc as <-.
    exists n. repeat split. now apply (to_node_arity e).
  - destruct H as (junk & m & H & _). rewrite H in Hc. injection Hc as <-.
    discriminate He.
Qed.

Lemma compile_root_arity_witness :
  exists root,
    nodes (mkVisitor [example_tree] None) = [root] /\
    to_node example_expr = Some root /\ arity_ok root = true.
Proof.
  apply (@compile_root_arity example_expr (mkVisitor [example_tree] None)); reflexivity.
Defined.

Lemma Token_eqb_eq (a b : Token) : Token_eqb a b = true <-> a = b.
Proof. destruct a, b; simpl; split; congruence. Qed.

Lemma Token_eqb_refl (a : Token) : Token_eqb a a = true.
Proof. now apply Token_eqb_eq. Qed.

(** The first failure is an unsupported expression under a node of a shape
    that [Visit] has no case for, or names an operator of the expression that
    [Visit] does not compile. *)
Lemma first_error_cases (e : Expr) (m : error) :
  first_error e = Some m ->
  (m = unsupported_expression /\ has_other e = true) \/
  (exists op, op_in op e = true /\ supported_op op = false /\
              m = unsupported_operator op).
Proof.
  revert m. induction e as [op l IHl r IHr|e IH| | | | | |]; intros m H;
    cbn [first_error] in H; try discriminate.
  - cbn [has_other op_in]. destruct (first_error l) as [ml|].
    + injection H as <-. destruct (IHl _ eq_refl) as [[-> Ho]|(op' & Hi & Hs & ->)].
      * left. now rewrite Ho.
      * right. exists op'. rewrite Hi, orb_true_r. auto.
    + destruct (first_error r) as [mr|].
      * injection H as <-. destruct (IHr _ eq_refl) as [[-> Ho]|(op' & Hi & Hs & ->)].
        -- left. now rewrite Ho, orb_true_r.
        -- right. exists op'. rewrite Hi, !orb_true_r. auto.
      * destruct (supported_op op) eqn:Es; [discriminate|]. injection H as <-.
        right. exists op. rewrite Token_eqb_refl. auto.
  - cbn [has_other op_in]. now apply IH.
  - injection H as <-. now left.
Qed.

Lemma has_unsupported_op_fails (e : Expr) :
  has_unsupported_op e = true -> first_error e <> None.
Proof.
  induction e as [op l IHl r IHr|e IH| | | | | |]; cbn [has_unsupported_op first_error];
    try discriminate; trivial.
  intros H. destruct (first_error l); [discriminate|].
  destruct (first_error r); [discriminate|].
  apply orb_true_iff in H as [H|H]; [|exfalso; now apply (IHr H)].
  apply orb_true_iff in H as [H|H]; [|exfalso; now apply (IHl H)].
  apply negb_true_iff in H. rewrite H. discriminate.
Qed.

Lemma compile_first_error (e : Expr) (m : error) :
  first_error e = Some m ->
  exists st, compile e = Return (mkVisitor st (Some m)).
Proof.
  intros Hm. pose proof (Visit_spec e []) as H. unfold compile, Walk.
  destruct (to_node e) as [n|].
  - destruct H as [_ H]. congruence.
  - destruct H as (junk & m' & H & Hm'). exists junk.
    rewrite H. cbn. congruence.
Qed.

(** C7 (as amended).  On an expression with a binary operator that is none
    of the six comparisons, [AND] or [OR], the compiler fails, and the error
    is the first failure of the expression in post-order ([first_error]):
    either "unsupported operator" followed by the text of such an operator
    of the expression, or, when a node of a shape without a case in [Visit]
    is met first, "unsupported expression".  It is the former when the
    expression has no such node. *)
Theorem compile_unsupported_operator (e : Expr) :
  has_unsupported_op e = true ->
  exists st m,
    compile e = Return (mkVisitor st (Some m)) /\
    first_error e = Some m /\
    ((m = unsupported_expression /\ has_other e = true) \/
     (exists op, op_in op e = true /\ supported_op op = false /\
                 m = ("unsupported operator, " ++ Token_String op)%string)) /\
    (has_other e = false ->
     exists op, op_in op e = true /\ supported_op op = false /\
                m = ("unsupported operator, " ++ Token_String op)%string).
Proof.
  intros H. apply has_unsupported_op_fails in H.
  destruct (first_error e) as [m|] eqn:Em; [|congruence].
  destruct (compile_first_error e Em) as [st Hc].
  exists st, m. split; trivial. split; trivial.
  pose proof (first_error_cases e Em) as Hcases. split; trivial.
  intros Ho. destruct Hcases as [[_ Ho']|Hop]; [congruence | exact Hop].
Qed.

Lemma compile_unsupported_operator_witness :
  exists st m,
    compile (BinaryExpr AND
               (ParenExpr (BinaryExpr ADD (VarRef "a") (IntegerLiteral 1)))
               (Other Call))
      = Return (mkVisitor st (Some m)) /\
    first_error (BinaryExpr AND
                   (ParenExpr (BinaryExpr ADD (VarRef "a") (IntegerLiteral 1)))
                   (Other Call)) = Some m /\
    ((m = unsupported_expression /\
      has_other (BinaryExpr AND
                   (ParenExpr (BinaryExpr ADD (VarRef "a") (IntegerLiteral 1)))
                   (Other Call)) = true) \/
     (exists op,
         op_in op (BinaryExpr AND
                     (ParenExpr (BinaryExpr ADD (VarRef "a") (IntegerLiteral 1)))
                     (Other Call)) = true /\
         supported_op op = false /\
         m = ("unsupported operator, " ++ Token_String op)%string)) /\
    (has_other (BinaryExpr AND
                  (ParenExpr (BinaryExpr ADD (VarRef "a") (IntegerLiteral 1)))
                  (Other Call)) = false ->
     exists op,
       op_in op (BinaryExpr AND
                   (ParenExpr (BinaryExpr ADD (VarRef "a") (IntegerLiteral 1)))
                   (Other Call)) = true /\
       supported_op op = false /\
       m = ("unsupported operator, " ++ Token_String op)%string).
Proof.
  apply compile_unsupported_operator. reflexivity.
Defined.

(** C7 as stated fails: the expression [f() + 1] has the operator [+], which
    the compiler does not compile, and the error is "unsupported expression",
    which does not name the operator. *)
Lemma compile_unsupported_expression_first :
  has_unsupported_op (BinaryExpr ADD (Other Call) (IntegerLiteral 1)) = true /\
  compile (BinaryExpr ADD (Other Call) (IntegerLiteral 1))
    = Return (mkVisitor [] (Some "unsupported expression"%string)).
Proof. split; reflexivity. Qed.

(** *** Further properties of the compiler *)

Lemma compile_cases (e : Expr) :
  (exists n, to_node e = Some n /\ compile e = Return (mkVisitor [n] None)) \/
  (exists st m, first_error e = Some m /\ compile e = Return (mkVisitor st (Some m))).
Proof.
  pose proof (Visit_spec e []) as H. unfold compile, Walk.
  destruct (to_node e) as [n|].
  - left. exists n. destruct H as [H _]. auto.
  - right. destruct H as (junk & m & H & Hm). exists junk, m. auto.
Qed.

(** The compiler never reaches the panics of [pop] and [pop2]: on every
    expression it returns, with the wire tree of the expression alone on the
    stack, or with the first failure of the expression as its error. *)
Theorem compile_total (e : Expr) :
  (exists n, to_node e = Some n /\ compile e = Return (mkVisitor [n] None)) \/
  (exists st m, first_error e = Some m /\ compile e = Return (mkVisitor st (Some m))).
Proof. apply compile_cases. Qed.

(** The compiler succeeds exactly on the expressions all of whose binary
    operators are comparisons, [AND] or [OR] and which have no node of a
    shape without a case in [Visit]. *)
Theorem compile_succeeds_iff (e : Expr) :
  (exists v, compile e = Return v /\ Err v = None) <->
  has_unsupported_op e = false /\ has_other e = false.
Proof.
  assert (Hfe : first_error e = None <->
                has_unsupported_op e = false /\ has_other e = false).
  { induction e as [op l IHl r IHr|e IH| | | | | |];
      cbn [first_error has_unsupported_op has_other];
      try (split; [auto | reflexivity]); trivial.
    - destruct (first_error l).
      + split; [discriminate|]. intros [H1 H2].
        apply orb_false_iff in H1 as [H1 _]. apply orb_false_iff in H1 as [_ H1].
        apply orb_false_iff in H2 as [H2 _]. destruct IHl as [_ IHl].
        now apply IHl.
      + destruct IHl as [IHl _]. destruct (IHl eq_refl) as [-> ->].
        rewrite orb_false_r. cbn [orb]. destruct (first_error r).
        * split; [discriminate|]. intros [H1 H2].
          apply orb_false_iff in H1 as [_ H1]. destruct IHr as [_ IHr].
          now apply IHr.
        * destruct IHr as [IHr _]. destruct (IHr eq_refl) as [-> ->].
          rewrite orb_false_r. destruct (supported_op op); cbn; split;
            try discriminate; auto. intros [? _]. discriminate.
    - split; [discriminate | intros [_ H]; discriminate]. }
  rewrite <- Hfe. destruct (compile_cases e) as [(n & Hn & Hc)|(st & m & Hm & Hc)].
  - split.
    + intros _. apply first_error_to_node. congruence.
    + intros _. eexists. split; [exact Hc | reflexivity].
  - split.
    + intros (v & Hv & He). rewrite Hc in Hv. injection Hv as <-. discriminate He.
    + congruence.
Qed.

(** The stack that [Visit] is given stays at the bottom, whatever the
    expression: a run from a visitor with no error recorded returns, and the
    nodes it returns begin with the nodes it was given; when no error is
    recorded at the end, exactly one node was added. *)
Theorem Visit_keeps_stack (e : Expr) (st : list Node) :
  exists added err',
    Visit e (mkVisitor st None) = Return (mkVisitor (st ++ added) err') /\
    (err' = None -> List.length added = 1).
Proof.
  pose proof (Visit_spec e st) as H. destruct (to_node e) as [n|].
  - destruct H as [H _]. exists [n], None. auto.
  - destruct H as (junk & m & H & _). exists junk, (Some m). split; trivial.
    discriminate.
Qed.

(** The stack is last in, first out: [pop] returns the node pushed last and
    the visitor as it was before the push; [pop2] returns the two nodes
    pushed last, the earlier one as the left operand; on fewer nodes than
    they take, [pop] and [pop2] panic. *)
Theorem pop_push_inverse (v : exprToNodeVisitor) (l r : Node) :
  pop (push v r) = Return (r, v) /\
  pop2 (push (push v l) r) = Return (l, r, v) /\
  pop (mkVisitor [] (err v)) = Panic "exprToNodeVisitor: stack empty" /\
  pop2 (mkVisitor [] (err v)) = Panic "exprToNodeVisitor: stack empty" /\
  pop2 (mkVisitor [r] (err v)) = Panic "exprToNodeVisitor: stack empty".
Proof.
  repeat split; try reflexivity; [apply pop_push | apply pop2_push_push].
Qed.

(** [mapOpToComparison] sends different operators to different comparisons,
    and it has a comparison exactly for the six comparison operators. *)
Theorem mapOpToComparison_injective (a b : Token) (c : Node_Comparison) :
  (mapOpToComparison a = Some c -> mapOpToComparison b = Some c -> a = b) /\
  (mapOpToComparison a <> None <->
   a = EQ \/ a = NEQ \/ a = LT \/ a = LTE \/ a = GT \/ a = GTE).
Proof.
  split.
  - destruct a, b; simpl; congruence.
  - destruct a; simpl; split; intros H; try congruence; try tauto;
      repeat (destruct H as [H|H]; try discriminate).
Qed.

(** The text of an error for an unsupported operator determines the
    operator. *)
Theorem unsupported_operator_text (a b : Token) :
  unsupported_operator a = unsupported_operator b -> a = b.
Proof.
  destruct a, b; intros H; try reflexivity; discriminate H.
Qed.



Lemma unsupported_operator_text_witness : BITWISE_XOR = BITWISE_XOR.
Proof.
  apply (@unsupported_operator_text BITWISE_XOR BITWISE_XOR). reflexivity.
Defined.

Lemma dedupe_loop_refines_compact_witness :
  snd (dedupe_loop ["a"; "a"; "b"]%string)
    <= List.length (fst (dedupe_loop ["a"; "a"; "b"]%string)) /\
  firstn (snd (dedupe_loop ["a"; "a"; "b"]%string))
         (fst (dedupe_loop ["a"; "a"; "b"]%string))
    = compact ["a"; "a"; "b"]%string.
Proof.
  apply dedupe_loop_refines_compact. discriminate.
Defined.

(** ** The database argument *)

Lemma IndexByte_range (s : string) (c : ascii) :
  IndexByte s c = (-1)%Z \/ (0 <= IndexByte s c < Z.of_nat (String.length s))%Z.
Proof.
  induction s as [|a t IH]; cbn [IndexByte String.length]; [now left|].
  destruct (Ascii.eqb a c); [right; lia|].
  destruct IH as [->|IH]; [now left|].
  destruct (Z.ltb_spec (IndexByte t c) 0); [lia|]. right. lia.
Qed.

Lemma substring_all (s : string) : substring 0 (String.length s) s = s.
Proof. induction s as [|a t IH]; simpl; [|rewrite IH]; reflexivity. Qed.

(** An argument with a ['/'] is the database part, the ['/'] and the policy
    part; the database part has no ['/']. *)
Lemma split_at_IndexByte (s : string) :
  (0 <= IndexByte s "/"%char)%Z ->
  s = (str_to s (IndexByte s "/"%char) ++ "/"
       ++ str_from s (IndexByte s "/"%char + 1))%string /\
  IndexByte (str_to s (IndexByte s "/"%char)) "/"%char = (-1)%Z.
Proof.
  unfold str_to, str_from.
  induction s as [|a t IH]; cbn [IndexByte]; [lia|].
  destruct (Ascii.eqb_spec a "/"%char) as [->|Hne].
  - intros _. change (Z.to_nat (0 + 1)) with 1. change (Z.to_nat 0) with 0.
    cbn [substring String.length Nat.sub String.append IndexByte].
    rewrite Nat.sub_0_r, substring_all. auto.
  - destruct (Z.ltb_spec (IndexByte t "/"%char) 0) as [Hlt|Hge]; [lia|]. intros _.
    destruct (IH Hge) as [IH1 IH2].
    replace (Z.to_nat (IndexByte t "/"%char + 1))
      with (S (Z.to_nat (IndexByte t "/"%char))) by lia.
    replace (Z.to_nat (IndexByte t "/"%char + 1 + 1))
      with (S (Z.to_nat (IndexByte t "/"%char + 1))) by lia.
    cbn [substring String.length Nat.sub String.append IndexByte]. split.
    + f_equal. exact IH1.
    + apply Ascii.eqb_neq in Hne. rewrite Hne, IH2. reflexivity.
Qed.

Lemma IndexByte_join (a b : string) :
  IndexByte a "/"%char = (-1)%Z ->
  IndexByte (a ++ "/" ++ b)%string "/"%char = Z.of_nat (String.length a) /\
  str_to (a ++ "/" ++ b)%string (Z.of_nat (String.length a)) = a /\
  str_from (a ++ "/" ++ b)%string (Z.of_nat (String.length a) + 1) = b.
Proof.
  unfold str_to, str_from.
  induction a as [|x t IH]; cbn [IndexByte String.append String.length].
  - intros _. change (Z.to_nat (Z.of_nat 0 + 1)) with 1.
    change (Z.to_nat (Z.of_nat 0)) with 0.
    cbn [Ascii.eqb Bool.eqb substring String.length Nat.sub String.append IndexByte].
    rewrite Nat.sub_0_r, substring_all. auto.
  - destruct (Ascii.eqb x "/"%char) eqn:Ex; [discriminate|].
    destruct (Z.ltb_spec (IndexByte t "/"%char) 0) as [Hlt|Hge]; [|lia]. intros _.
    destruct (IndexByte_range t "/"%char) as [Hm|Hr]; [|lia].
    destruct (IH Hm) as (IH1 & IH2 & IH3).
    change ((t ++ String "/" b)%string) with ((t ++ "/" ++ b)%string).
    rewrite IH1.
    destruct (Z.ltb_spec (Z.of_nat (String.length t)) 0); [lia|].
    replace (Z.to_nat (Z.of_nat (S (String.length t))))
      with (S (Z.to_nat (Z.of_nat (String.length t)))) by lia.
    replace (Z.to_nat (Z.of_nat (S (String.length t)) + 1))
      with (S (Z.to_nat (Z.of_nat (String.length t) + 1))) by lia.
    cbn [substring String.length Nat.sub].
    repeat split; [lia | now rewrite IH2 | exact IH3].
Qed.

(** The argument of [validateArgs] is split at its first ['/']: an argument
    with a ['/'] is the database looked up, the ['/'] and the policy named,
    and the database looked up has no ['/']; an argument without one is the
    database looked up, and names no policy. *)
Theorem database_argument_split (database : string) :
  ((0 <= IndexByte database "/"%char)%Z ->
   database = (database_part database ++ "/" ++ policy_part database)%string) /\
  (IndexByte database "/"%char = (-1)%Z ->
   database_part database = database /\ policy_part database = EmptyString) /\
  IndexByte (database_part database) "/"%char = (-1)%Z.
Proof.
  unfold database_part, policy_part.
  destruct (IndexByte_range database "/"%char) as [Hm|Hr].
  - rewrite Hm. cbn. repeat split; trivial. lia.
  - destruct (Z.gtb_spec (IndexByte database "/"%char) (-1)); [|lia].
    destruct (@split_at_IndexByte database) as [H1 H2]; [lia|].
    repeat split; trivial; lia.
Qed.

(** The request that the command builds is read back by the store as the
    command meant it: when the database of the command has no ['/'], the
    store looks up that database and takes the retention policy of the
    command as the policy named (none when the command has none). *)
Theorem query_request_round_trip (cmd : Command) :
  IndexByte (cmd_database cmd) "/"%char = (-1)%Z ->
  database_part (fst (query_request cmd)) = cmd_database cmd /\
  policy_part (fst (query_request cmd)) = cmd_retentionPolicy cmd /\
  snd (query_request cmd)
    = {| Start := cmd_startTime cmd; End_ := cmd_endTime cmd |}.
Proof.
  intros Hd. unfold query_request. cbn [fst snd].
  destruct (String.eqb_spec (cmd_retentionPolicy cmd) EmptyString) as [He|Hne];
    cbn [negb].
  - rewrite He. unfold database_part, policy_part. rewrite Hd. auto.
  - destruct (@IndexByte_join (cmd_database cmd) (cmd_retentionPolicy cmd) Hd)
      as (H1 & H2 & H3).
    unfold database_part, policy_part. rewrite H1.
    destruct (Z.gtb_spec (Z.of_nat (String.length (cmd_database cmd))) (-1)); [|lia].
    auto.
Qed.

Lemma query_request_round_trip_witness :
  database_part (fst (query_request (mkCommand "db" "autogen" 0 0))) = "db"%string /\
  policy_part (fst (query_request (mkCommand "db" "autogen" 0 0))) = "autogen"%string /\
  snd (query_request (mkCommand "db" "autogen" 0 0)) = {| Start := 0; End_ := 0 |}.
Proof.
  apply (@query_request_round_trip (mkCommand "db" "autogen" 0 0)). reflexivity.
Defined.

Lemma validate_None (cmd : Command) :
  validate cmd = None <->
  cmd_database cmd <> EmptyString /\
  (cmd_startTime cmd = 0 \/ cmd_endTime cmd = 0 \/
   cmd_startTime cmd <= cmd_endTime cmd)%Z.
Proof.
  unfold validate.
  destruct (String.eqb_spec (cmd_database cmd) EmptyString) as [He|Hne].
  - split; [discriminate | tauto].
  - destruct (Z.eqb_spec (cmd_startTime cmd) 0) as [H0|H0],
      (Z.eqb_spec (cmd_endTime cmd) 0) as [H1|H1],
      (Z.ltb_spec (cmd_endTime cmd) (cmd_startTime cmd)) as [H2|H2]; cbn;
      (split; [try discriminate; intros _; split; trivial; lia | ]);
      try (intros _; reflexivity).
    intros [_ H]. lia.
Qed.

(** [Command.validate] accepts a command exactly when its database is not
    empty and its end is not before its start, a start or an end of 0
    standing for no bound. *)
Theorem validate_accepts (cmd : Command) :
  validate cmd = None <->
  cmd_database cmd <> EmptyString /\
  (cmd_startTime cmd = 0 \/ cmd_endTime cmd = 0 \/
   cmd_startTime cmd <= cmd_endTime cmd)%Z.
Proof. apply validate_None. Qed.

(** ** The read path and its collaborators *)

Section ReadPath.
Variables Context Shard Aggregate : Type.
Variables seriesCursor indexSeriesCursor : Type.
Variable asSeriesCursor : indexSeriesCursor -> seriesCursor.
Variables MinNanoTime MaxNanoTime : Z.
Variable sort_Sort :
  (ShardGroupInfo -> ShardGroupInfo -> bool) -> list ShardGroupInfo -> list ShardGroupInfo.


(** Every call of [validateArgs] writes one log line and looks up one
    database, the database part of its argument, and makes no other call;
    when it fails, the error is "no database" or "invalid retention
    policy" and the values returned with it are empty strings and zeros. *)
Theorem validateArgs_calls_and_errors
    (s : Store Context Shard Aggregate seriesCursor indexSeriesCursor)
    (database : string) (start end_ : Z) :
  snd (validateArgs MinNanoTime MaxNanoTime s database start end_)
    = [LogInfo "metaclient check" (database_part database);
       CallDatabase (database_part database)] /\
  (forall e, snd (fst (validateArgs MinNanoTime MaxNanoTime s database start end_)) = Some e ->
     fst (validateArgs MinNanoTime MaxNanoTime s database start end_)
       = (EmptyString, EmptyString, 0%Z, 0%Z, Some e) /\
     (e = "no database"%string \/ e = "invalid retention policy"%string)).
Proof.
  rewrite validateArgs_eq. cbn [fst snd]. split; trivial.
  destruct (Database (MetaClient s) _) as [di|]; cbv zeta.
  - destruct (RetentionPolicy di _); cbn [fst snd]; intros e H;
      [discriminate | injection H as <-; auto].
  - intros e H. injection H as <-. auto.
Qed.

(** The retention policy that [validateArgs] returns is the one the
    argument names after the ['/'], and the default policy of the database
    when the argument names none; it is a policy of the database. *)
Theorem validateArgs_policy
    (s : Store Context Shard Aggregate seriesCursor indexSeriesCursor)
    (database : string) (start end_ : Z)
    (db rp : string) (st en : Z) (tr : list Event) :
  validateArgs MinNanoTime MaxNanoTime s database start end_ = (db, rp, st, en, None, tr) ->
  exists di,
    Database (MetaClient s) (database_part database) = Some di /\
    db = database_part database /\
    (policy_part database <> EmptyString -> rp = policy_part database) /\
    (policy_part database = EmptyString -> rp = DefaultRetentionPolicy di) /\
    RetentionPolicy di rp <> None.
Proof.
  rewrite validateArgs_eq.
  destruct (Database (MetaClient s) _) as [di|]; [|discriminate]. cbv zeta.
  destruct (RetentionPolicy di _) eqn:Erp; [|discriminate].
  intros H. injection H as <- <- _ _ _. exists di.
  destruct (String.eqb_spec (policy_part database) EmptyString) as [He|Hne];
    repeat split; trivial; try congruence.
Qed.

(** A command that [validate] accepts and whose start is at most the
    maximum is resolved to a range in order: when [validateArgs] succeeds
    on the request of the command, the start it returns does not exceed the
    end it returns. *)
Theorem validate_then_resolve
    (s : Store Context Shard Aggregate seriesCursor indexSeriesCursor)
    (cmd : Command)
    (db rp : string) (st en : Z) (tr : list Event) :
  (MinNanoTime <= 0)%Z -> (MinNanoTime <= MaxNanoTime)%Z ->
  (cmd_startTime cmd <= MaxNanoTime)%Z ->
  validate cmd = None ->
  validateArgs MinNanoTime MaxNanoTime s (fst (query_request cmd)) (Start (snd (query_request cmd)))
                (End_ (snd (query_request cmd))) = (db, rp, st, en, None, tr) ->
  (st <= en)%Z.
Proof.
  intros Hmin Hmm Hs Hv H. apply validateArgs_success in H as (_ & -> & ->).
  apply validate_None in Hv as [_ Hv].
  unfold query_request, norm_start, norm_end. cbn [snd Start End_].
  destruct (Z.leb_spec (cmd_startTime cmd) 0), (Z.leb_spec (cmd_endTime cmd) 0); lia.
Qed.

(** [findShardIDs] makes one lookup of shard groups.  It returns the error
    of the meta client as it is, with no shard, and no shard and no error
    when the meta client returns no group. *)
Theorem findShardIDs_error_and_empty
    (s : Store Context Shard Aggregate seriesCursor indexSeriesCursor)
    (database rp : string)
    (desc : bool) (start end_ : Z) :
  snd (findShardIDs sort_Sort s database rp desc start end_)
    = [CallShardGroupsByTimeRange database rp start end_] /\
  (forall groups e,
      ShardGroupsByTimeRange (MetaClient s) database rp start end_ = (groups, Some e) ->
      fst (findShardIDs sort_Sort s database rp desc start end_) = ([], Some e)) /\
  (ShardGroupsByTimeRange (MetaClient s) database rp start end_ = ([], None) ->
   fst (findShardIDs sort_Sort s database rp desc start end_) = ([], None)).
Proof.
  rewrite findShardIDs_eq. cbn [fst snd]. repeat split.
  - intros groups e ->. reflexivity.
  - intros ->. reflexivity.
Qed.

(** With [sort.Sort] any routine that sorts, [findShardIDs] returns the
    shards of the groups of the meta client, each as often as the groups
    hold it: no shard is lost and none is added, in either direction. *)
Theorem findShardIDs_shards
    (s : Store Context Shard Aggregate seriesCursor indexSeriesCursor)
    (database rp : string) (desc : bool)
    (start end_ : Z) (groups : list ShardGroupInfo) :
  sort_contract sort_Sort ->
  ShardGroupsByTimeRange (MetaClient s) database rp start end_ = (groups, None) ->
  exists ids,
    fst (findShardIDs sort_Sort s database rp desc start end_) = (ids, None) /\
    Permutation (shard_ids groups) ids.
Proof.
  intros Hc Hg. rewrite findShardIDs_eq, Hg. cbn [fst snd].
  destruct groups as [|g t]; [exists []; auto|].
  eexists. split; [reflexivity|]. unfold shard_ids.
  apply Permutation_flat_map.
  destruct desc; apply Hc; [apply Reverse_strict_weak | apply Less_strict_weak].
Qed.

(** [Read] never returns a result set together with an error. *)
Theorem Read_result_or_error
    (s : Store Context Shard Aggregate seriesCursor indexSeriesCursor)
    (ctx : Context) (req : ReadRequest Aggregate)
    (rs : ResultSet Context Aggregate seriesCursor) (e : error) :
  fst (Read asSeriesCursor MinNanoTime MaxNanoTime sort_Sort s ctx req) <> (Some rs, Some e).
Proof.
  destruct (validateArgs MinNanoTime MaxNanoTime s (RR_Database req) (Start (RR_TimestampRange req))
                          (End_ (RR_TimestampRange req)))
    as [[[[[db rp] st] en] [e1|]] t1] eqn:Hv.
  { erewrite Read_validate_error by exact Hv. discriminate. }
  destruct (findShardIDs sort_Sort s db rp (RR_Descending req) st en) as [[ids [e2|]] t2] eqn:Hf.
  { erewrite Read_find_error by eassumption. discriminate. }
  erewrite Read_cursor by eassumption. cbn [fst].
  destruct (newIndexSeriesCursor (Cursors s) ctx req (tsdb_Shards (TSDBStore s) ids))
    as [[ic|] [e3|]]; cbn [fst snd]; discriminate.
Qed.

(** The result set of a successful [Read].  It carries the bounds after
    the substitution of the sentinel values, the direction (ascending unless
    the request is descending), the points limit and the aggregate of the
    request.  Its cursor is the index cursor, wrapped in a group cursor when
    the request has grouping keys, and that wrapped in a limit cursor when
    the series limit or the series offset is positive. *)
Theorem Read_result_set
    (s : Store Context Shard Aggregate seriesCursor indexSeriesCursor)
    (ctx : Context) (req : ReadRequest Aggregate)
    (db rp : string) (st en : Z) (t1 t2 : list Event) (ids : list Z)
    (ic : indexSeriesCursor) :
  validateArgs MinNanoTime MaxNanoTime s (RR_Database req) (Start (RR_TimestampRange req))
                (End_ (RR_TimestampRange req)) = (db, rp, st, en, None, t1) ->
  findShardIDs sort_Sort s db rp (RR_Descending req) st en = (ids, None, t2) ->
  newIndexSeriesCursor (Cursors s) ctx req (tsdb_Shards (TSDBStore s) ids)
    = (Some ic, None) ->
  exists cur inner,
    fst (Read asSeriesCursor MinNanoTime MaxNanoTime sort_Sort s ctx req)
      = (Some {| rs_req := {| rr_ctx := ctx;
                              rr_start := norm_start MinNanoTime (Start (RR_TimestampRange req));
                              rr_end := norm_end MaxNanoTime (End_ (RR_TimestampRange req));
                              rr_asc := negb (RR_Descending req);
                              rr_limit := RR_PointsLimit req;
                              rr_aggregate := RR_Aggregate req |};
                 rs_cur := cur |}, None) /\
    (RR_Grouping req = [] -> inner = asSeriesCursor ic) /\
    (RR_Grouping req <> [] ->
     inner = newGroupSeriesCursor (Cursors s) ctx (asSeriesCursor ic) (RR_Grouping req)) /\
    ((RR_SeriesLimit req <= 0 /\ RR_SeriesOffset req <= 0)%Z -> cur = inner) /\
    ((0 < RR_SeriesLimit req \/ 0 < RR_SeriesOffset req)%Z ->
     cur = newLimitSeriesCursor (Cursors s) ctx inner (RR_SeriesLimit req)
                                (RR_SeriesOffset req)).
Proof.
  intros H1 H2 H3. erewrite Read_cursor by eassumption. rewrite H3. cbn [fst snd].
  apply validateArgs_success in H1 as (_ & -> & ->). cbv zeta.
  set (inner := if (0 <? Z.of_nat (List.length (RR_Grouping req)))%Z
                then newGroupSeriesCursor (Cursors s) ctx (asSeriesCursor ic)
                                          (RR_Grouping req)
                else asSeriesCursor ic).
  exists (if ((RR_SeriesLimit req >? 0) || (RR_SeriesOffset req >? 0))%Z
          then newLimitSeriesCursor (Cursors s) ctx inner (RR_SeriesLimit req)
                                    (RR_SeriesOffset req)
          else inner), inner.
  split; [reflexivity|]. subst inner.
  split; [intros ->; reflexivity|].
  split; [destruct (RR_Grouping req); [congruence | reflexivity]|].
  destruct (Z.gtb_spec (RR_SeriesLimit req) 0), (Z.gtb_spec (RR_SeriesOffset req) 0);
    cbn [orb]; split; intros; try reflexivity; lia.
Qed.

(** The calls of [Read], in order: the log line and the lookup of the
    database; then, when the arguments resolve, one lookup of shard groups,
    for the database and the policy resolved and with the bounds after the
    substitution of the sentinel values; then, when the lookup succeeds,
    the shards and the index cursor; and then, when there is an index
    cursor and so a result set, the group cursor if the request has grouping
    keys and the limit cursor if the series limit or the series offset is
    positive.  [Read] makes no other call. *)
Theorem Read_calls
    (s : Store Context Shard Aggregate seriesCursor indexSeriesCursor)
    (ctx : Context) (req : ReadRequest Aggregate) :
  let database := RR_Database req in
  let start := norm_start MinNanoTime (Start (RR_TimestampRange req)) in
  let end_ := norm_end MaxNanoTime (End_ (RR_TimestampRange req)) in
  let resolve := [LogInfo "metaclient check" (database_part database);
                  CallDatabase (database_part database)] in
  let read := Read asSeriesCursor MinNanoTime MaxNanoTime sort_Sort s ctx req in
  (snd read = resolve /\ fst (fst read) = None) \/
  exists rp,
    (snd read
       = resolve ++ [CallShardGroupsByTimeRange (database_part database) rp start end_]
     /\ fst (fst read) = None) \/
    exists ids,
      (snd read
         = resolve ++ [CallShardGroupsByTimeRange (database_part database) rp start end_;
                       CallShards ids; CallNewIndexSeriesCursor]
       /\ fst (fst read) = None) \/
      (snd read
         = resolve ++ [CallShardGroupsByTimeRange (database_part database) rp start end_;
                       CallShards ids; CallNewIndexSeriesCursor] ++ cursor_calls req
       /\ fst (fst read) <> None).
Proof.
  cbv zeta.
  destruct (validateArgs MinNanoTime MaxNanoTime s (RR_Database req)
                         (Start (RR_TimestampRange req)) (End_ (RR_TimestampRange req)))
    as [[[[[db rp] st] en] [e1|]] t1] eqn:Hv.
  { erewrite Read_validate_error by exact Hv. left. split; [|reflexivity].
    rewrite validateArgs_eq in Hv. now injection Hv as _ <-. }
  right. exists rp.
  destruct (findShardIDs sort_Sort s db rp (RR_Descending req) st en)
    as [[ids [e2|]] t2] eqn:Hf.
  { erewrite Read_find_error by eassumption. left. split; [|reflexivity].
    rewrite findShardIDs_eq in Hf. injection Hf as _ <-.
    pose proof Hv as Hv'. apply validateArgs_success in Hv' as (-> & -> & ->).
    rewrite validateArgs_eq in Hv. now injection Hv as _ <-. }
  right. exists ids. erewrite Read_cursor by eassumption. cbn [fst snd].
  rewrite findShardIDs_eq in Hf. injection Hf as _ <-.
  pose proof Hv as Hv'. apply validateArgs_success in Hv' as (-> & -> & ->).
  rewrite validateArgs_eq in Hv. injection Hv as _ <-.
  destruct (newIndexSeriesCursor (Cursors s) ctx req (tsdb_Shards (TSDBStore s) ids))
    as [[ic|] [e|]]; cbn [fst snd].
  - left. split; [now rewrite app_nil_r | reflexivity].
  - right. split; [reflexivity | discriminate].
  - left. split; [now rewrite app_nil_r | reflexivity].
  - left. split; [now rewrite app_nil_r | reflexivity].
Qed.

(** [ReadTagKeys] as a function of the outcomes of its steps. *)
Lemma ReadTagKeys_keys
    (s : Store Context Shard Aggregate seriesCursor indexSeriesCursor)
    (ctx : Context) (req : ReadTagKeysRequest)
    (db rp : string) (st en : Z) (t1 t2 : list Event) (ids : list Z)
    (keys : list TagKeys) :
  validateArgs MinNanoTime MaxNanoTime s (TK_Database req) (Start (TK_TimestampRange req))
                (End_ (TK_TimestampRange req)) = (db, rp, st, en, None, t1) ->
  findShardIDs sort_Sort s db rp false st en = (ids, None, t2) ->
  tsdb_TagKeys (TSDBStore s) ids = (keys, None) ->
  fst (ReadTagKeys MinNanoTime MaxNanoTime sort_Sort s ctx req) = (r <- MergeTagKeys keys ;; Return (r, None)).
Proof.
  intros H1 H2 H3. unfold ReadTagKeys, bind, emit. rewrite H1, H2, H3. reflexivity.
Qed.

(** When the arguments resolve and the shards are found, always in
    ascending order, and the index returns no measurement, one measurement
    with strictly ascending keys, or several measurements with a key among
    them, [ReadTagKeys] returns the sorted union of the keys without
    duplicates, and no error. *)
Theorem ReadTagKeys_sorted_union
    (s : Store Context Shard Aggregate seriesCursor indexSeriesCursor)
    (ctx : Context) (req : ReadTagKeysRequest)
    (db rp : string) (st en : Z) (t1 t2 : list Event) (ids : list Z)
    (keys : list TagKeys) :
  validateArgs MinNanoTime MaxNanoTime s (TK_Database req) (Start (TK_TimestampRange req))
                (End_ (TK_TimestampRange req)) = (db, rp, st, en, None, t1) ->
  findShardIDs sort_Sort s db rp false st en = (ids, None, t2) ->
  tsdb_TagKeys (TSDBStore s) ids = (keys, None) ->
  merge_input keys ->
  exists r, fst (ReadTagKeys MinNanoTime MaxNanoTime sort_Sort s ctx req) = Return (r, None) /\ merged keys r.
Proof.
  intros H1 H2 H3 Hk. erewrite ReadTagKeys_keys by eassumption.
  destruct keys as [|k1 [|k2 rest]].
  - exists []. split; trivial. repeat split; constructor.
  - exists (Keys k1). split; trivial. simpl in Hk.
    split; trivial. split; [now apply sorted_lt_NoDup|].
    unfold all_keys. simpl. rewrite app_nil_r.
    rewrite nodup_fixed_point; [reflexivity | now apply sorted_lt_NoDup].
  - exists (compact (sort_Strings (all_keys (k1 :: k2 :: rest)))).
    split; [|apply merged_compact_sort].
    now rewrite MergeTagKeys_many_compact.
Qed.

(** The panic of the merge reaches the caller of [ReadTagKeys]: when the
    index returns two or more measurements without a key among them,
    [ReadTagKeys] panics. *)
Theorem ReadTagKeys_panics
    (s : Store Context Shard Aggregate seriesCursor indexSeriesCursor)
    (ctx : Context) (req : ReadTagKeysRequest)
    (db rp : string) (st en : Z) (t1 t2 : list Event) (ids : list Z)
    (keys : list TagKeys) :
  validateArgs MinNanoTime MaxNanoTime s (TK_Database req) (Start (TK_TimestampRange req))
                (End_ (TK_TimestampRange req)) = (db, rp, st, en, None, t1) ->
  findShardIDs sort_Sort s db rp false st en = (ids, None, t2) ->
  tsdb_TagKeys (TSDBStore s) ids = (keys, None) ->
  2 <= List.length keys -> all_keys keys = [] ->
  fst (ReadTagKeys MinNanoTime MaxNanoTime sort_Sort s ctx req) = Panic "slice bounds out of range".
Proof.
  intros H1 H2 H3 Hl He. erewrite ReadTagKeys_keys by eassumption.
  destruct keys as [|k1 [|k2 rest]]; simpl in Hl; try lia.
  rewrite MergeTagKeys_many, He. reflexivity.
Qed.

(** On a database that the meta client does not know, [ReadTagKeys] returns
    the error "no database" and looks up no shard group and no tag key. *)
Theorem ReadTagKeys_unknown_database
    (s : Store Context Shard Aggregate seriesCursor indexSeriesCursor)
    (ctx : Context)
    (req : ReadTagKeysRequest) :
  Database (MetaClient s) (database_part (TK_Database req)) = None ->
  ReadTagKeys MinNanoTime MaxNanoTime sort_Sort s ctx req
    = (Return ([], Some "no database"%string),
       [LogInfo "metaclient check" (database_part (TK_Database req));
        CallDatabase (database_part (TK_Database req))]).
Proof.
  intros H. unfold ReadTagKeys, bind. rewrite validateArgs_eq, H. reflexivity.
Qed.
End ReadPath.

(** *** The read path on the example *)

Lemma validateArgs_policy_witness :
  exists di,
    Database (MetaClient example_store) (database_part "db") = Some di /\
    "db"%string = database_part "db" /\
    (policy_part "db" <> EmptyString -> "autogen"%string = policy_part "db") /\
    (policy_part "db" = EmptyString -> "autogen"%string = DefaultRetentionPolicy di) /\
    RetentionPolicy di "autogen" <> None.
Proof.
  apply (@validateArgs_policy unit unit unit unit unit
           engine_MinNanoTime engine_MaxNanoTime example_store "db" 0 7
           "db" "autogen" engine_MinNanoTime 7
           [LogInfo "metaclient check" "db"; CallDatabase "db"]).
  reflexivity.
Defined.

Lemma validate_then_resolve_witness : (5 <= engine_MaxNanoTime)%Z.
Proof.
  apply (@validate_then_resolve unit unit unit unit unit
           engine_MinNanoTime engine_MaxNanoTime example_store
           (mkCommand "db" "autogen" 5 0) "db" "autogen" 5 engine_MaxNanoTime
           [LogInfo "metaclient check" "db"; CallDatabase "db"]).
  - unfold engine_MinNanoTime. lia.
  - unfold engine_MinNanoTime, engine_MaxNanoTime. lia.
  - unfold engine_MaxNanoTime. simpl. lia.
  - reflexivity.
  - reflexivity.
Defined.

Lemma findShardIDs_shards_witness :
  exists ids,
    fst (findShardIDs (@sort_small ShardGroupInfo) example_store
                      "db" "autogen" true 1 10) = (ids, None) /\
    Permutation (shard_ids example_groups) ids.
Proof.
  apply (@findShardIDs_shards unit unit unit unit unit (@sort_small ShardGroupInfo)
           example_store "db" "autogen" true 1 10 example_groups).
  - apply sort_small_contract.
  - reflexivity.
Defined.

Lemma Read_result_set_witness :
  exists cur inner,
    fst (Read (fun _ : unit => "index"%string) engine_MinNanoTime engine_MaxNanoTime
              (@insertionSort ShardGroupInfo) example_store_series tt
              (mkReadRequest "db" (mkTimestampRange 0 7) true ["host"]%string 0 3 10
                             (@None unit) None))
      = (Some {| rs_req := {| rr_ctx := tt;
                              rr_start := norm_start engine_MinNanoTime 0;
                              rr_end := norm_end engine_MaxNanoTime 7;
                              rr_asc := negb true;
                              rr_limit := 10;
                              rr_aggregate := None |};
                 rs_cur := cur |}, None) /\
    (["host"]%string = [] -> inner = "index"%string) /\
    (["host"]%string <> [] -> inner = "group(index)"%string) /\
    ((0 <= 0 /\ 3 <= 0)%Z -> cur = inner) /\
    ((0 < 0 \/ 0 < 3)%Z -> cur = ("limit(" ++ inner ++ ")")%string).
Proof.
  apply (@Read_result_set unit unit unit string unit (fun _ : unit => "index"%string)
           engine_MinNanoTime engine_MaxNanoTime (@insertionSort ShardGroupInfo)
           example_store_series tt
           (mkReadRequest "db" (mkTimestampRange 0 7) true ["host"]%string 0 3 10
                          (@None unit) None)
           "db" "autogen" engine_MinNanoTime 7
           [LogInfo "metaclient check" "db"; CallDatabase "db"]
           [CallShardGroupsByTimeRange "db" "autogen" engine_MinNanoTime 7]
           [1; 2; 3; 4; 5; 6; 7]%Z tt); reflexivity.
Defined.

Lemma ReadTagKeys_sorted_union_witness :
  exists r,
    fst (ReadTagKeys engine_MinNanoTime engine_MaxNanoTime
                     (@insertionSort ShardGroupInfo) example_store tt
                     (mkReadTagKeysRequest "db" (mkTimestampRange 0 0)))
      = Return (r, None) /\
    merged [mkTagKeys "cpu" ["host"; "region"]; mkTagKeys "mem" ["host"]]%string r.
Proof.
  apply (@ReadTagKeys_sorted_union unit unit unit unit unit
           engine_MinNanoTime engine_MaxNanoTime (@insertionSort ShardGroupInfo)
           example_store tt (mkReadTagKeysRequest "db" (mkTimestampRange 0 0))
           "db" "autogen" engine_MinNanoTime engine_MaxNanoTime
           [LogInfo "metaclient check" "db"; CallDatabase "db"]
           [CallShardGroupsByTimeRange "db" "autogen"
              engine_MinNanoTime engine_MaxNanoTime]
           [7; 1; 2; 3; 4; 5; 6]%Z
           [mkTagKeys "cpu" ["host"; "region"]; mkTagKeys "mem" ["host"]]%string);
    try reflexivity.
  simpl. discriminate.
Defined.

Lemma ReadTagKeys_panics_witness :
  fst (ReadTagKeys engine_MinNanoTime engine_MaxNanoTime
                   (@insertionSort ShardGroupInfo) example_store_no_keys tt
                   (mkReadTagKeysRequest "db" (mkTimestampRange 0 0)))
    = Panic "slice bounds out of range".
Proof.
  apply (@ReadTagKeys_panics unit unit unit unit unit
           engine_MinNanoTime engine_MaxNanoTime (@insertionSort ShardGroupInfo)
           example_store_no_keys tt (mkReadTagKeysRequest "db" (mkTimestampRange 0 0))
           "db" "autogen" engine_MinNanoTime engine_MaxNanoTime
           [LogInfo "metaclient check" "db"; CallDatabase "db"]
           [CallShardGroupsByTimeRange "db" "autogen"
              engine_MinNanoTime engine_MaxNanoTime]
           [7; 1; 2; 3; 4; 5; 6]%Z
           [mkTagKeys "cpu" []; mkTagKeys "mem" []]%string);
    reflexivity.
Defined.

Lemma ReadTagKeys_unknown_database_witness :
  ReadTagKeys engine_MinNanoTime engine_MaxNanoTime
              (@insertionSort ShardGroupInfo) example_store tt
              (mkReadTagKeysRequest "nope" (mkTimestampRange 0 0))
    = (Return ([], Some "no database"%string),
       [LogInfo "metaclient check" (database_part "nope");
        CallDatabase (database_part "nope")]).
Proof.
  apply (@ReadTagKeys_unknown_database unit unit unit unit unit
           engine_MinNanoTime engine_MaxNanoTime (@insertionSort ShardGroupInfo)
           example_store tt (mkReadTagKeysRequest "nope" (mkTimestampRange 0 0))).
  reflexivity.
Defined.

(** ** The sort interface of [tagKeysSlice] *)

Lemma set_index_length_gen {A} (s : list A) (i : nat) (x : A) :
  List.length (set_index s i x) = List.length s.
Proof.
  revert i; induction s as [|h t IH]; intros [|i]; simpl; auto.
Qed.

Lemma nth_error_set_index_eq {A} (s : list A) (i : nat) (x : A) :
  i < List.length s -> nth_error (set_index s i x) i = Some x.
Proof.
  revert i; induction s as [|h t IH]; intros [|i] H; simpl in *; try lia; trivial.
  apply IH. lia.
Qed.

Lemma nth_error_set_index_neq {A} (s : list A) (i k : nat) (x : A) :
  i <> k -> nth_error (set_index s i x) k = nth_error s k.
Proof.
  revert i k; induction s as [|h t IH]; intros [|i] [|k] H; simpl; try lia; trivial.
  apply IH. lia.
Qed.

Lemma nth_error_swap (a : tagKeysSlice) (i j k : nat) (x y : TagKeys) :
  nth_error a i = Some x -> nth_error a j = Some y ->
  nth_error (set_index (set_index a i y) j x) k
  = if Nat.eqb k j then Some x else if Nat.eqb k i then Some y else nth_error a k.
Proof.
  intros Hx Hy.
  assert (Hi : i < List.length a) by (apply nth_error_Some; congruence).
  assert (Hj : j < List.length a) by (apply nth_error_Some; congruence).
  destruct (Nat.eqb_spec k j) as [->|Hkj].
  - apply nth_error_set_index_eq. now rewrite set_index_length_gen.
  - rewrite nth_error_set_index_neq by congruence.
    destruct (Nat.eqb_spec k i) as [->|Hki].
    + now apply nth_error_set_index_eq.
    + apply nth_error_set_index_neq. congruence.
Qed.

(** [Swap] on two indices within the slice exchanges the two elements and
    leaves the others and the length as they are; swapping the same indices
    again gives the slice back. *)
Theorem tagKeysSlice_Swap_exchanges (a : tagKeysSlice) (i j : nat) :
  i < tagKeysSlice_Len a -> j < tagKeysSlice_Len a ->
  exists a',
    tagKeysSlice_Swap a i j = Return a' /\
    tagKeysSlice_Len a' = tagKeysSlice_Len a /\
    nth_error a' i = nth_error a j /\
    nth_error a' j = nth_error a i /\
    (forall k, k <> i -> k <> j -> nth_error a' k = nth_error a k) /\
    tagKeysSlice_Swap a' i j = Return a.
Proof.
  unfold tagKeysSlice_Len, tagKeysSlice_Swap. intros Hi Hj.
  destruct (nth_error a i) as [x|] eqn:Ex; [|apply nth_error_None in Ex; lia].
  destruct (nth_error a j) as [y|] eqn:Ey; [|apply nth_error_None in Ey; lia].
  eexists. split; [reflexivity|].
  pose proof (fun k => @nth_error_swap a i j k x y Ex Ey) as Hs.
  split; [now rewrite !set_index_length_gen|].
  split; [rewrite Hs; destruct (Nat.eqb_spec i j) as [->|]; [congruence|];
          now rewrite Nat.eqb_refl|].
  split; [rewrite Hs; now rewrite Nat.eqb_refl|].
  split.
  - intros k Hki Hkj. rewrite Hs.
    destruct (Nat.eqb_spec k j); [contradiction|].
    destruct (Nat.eqb_spec k i); [contradiction | reflexivity].
  - assert (Hi' : nth_error (set_index (set_index a i y) j x) i = Some y).
    { rewrite Hs. destruct (Nat.eqb_spec i j) as [->|]; [congruence|].
      now rewrite Nat.eqb_refl. }
    assert (Hj' : nth_error (set_index (set_index a i y) j x) j = Some x).
    { rewrite Hs. now rewrite Nat.eqb_refl. }
    rewrite Hi', Hj'. f_equal. apply nth_error_ext. intros k.
    rewrite (@nth_error_swap _ i j k y x Hi' Hj'), Hs.
    destruct (Nat.eqb_spec k j) as [->|]; [congruence|].
    destruct (Nat.eqb_spec k i) as [->|]; [congruence | reflexivity].
Qed.

Lemma tagKeysSlice_Swap_exchanges_witness :
  exists a',
    tagKeysSlice_Swap [mkTagKeys "b" []; mkTagKeys "a" []; mkTagKeys "c" []]%string 0 1
      = Return a' /\
    tagKeysSlice_Len a'
      = tagKeysSlice_Len [mkTagKeys "b" []; mkTagKeys "a" []; mkTagKeys "c" []]%string /\
    nth_error a' 0
      = nth_error [mkTagKeys "b" []; mkTagKeys "a" []; mkTagKeys "c" []]%string 1 /\
    nth_error a' 1
      = nth_error [mkTagKeys "b" []; mkTagKeys "a" []; mkTagKeys "c" []]%string 0 /\
    (forall k, k <> 0 -> k <> 1 ->
       nth_error a' k
       = nth_error [mkTagKeys "b" []; mkTagKeys "a" []; mkTagKeys "c" []]%string k) /\
    tagKeysSlice_Swap a' 0 1
      = Return [mkTagKeys "b" []; mkTagKeys "a" []; mkTagKeys "c" []]%string.
Proof.
  apply tagKeysSlice_Swap_exchanges; simpl; lia.
Defined.

(** [Less] orders the indices of a slice by measurement name as a strict
    weak order, which is what [sort.Sort] asks of it: no index is less than
    itself, [Less] is transitive, and so is its negation. *)
Theorem tagKeysSlice_Less_strict_weak (a : tagKeysSlice) (i j k : nat) :
  i < tagKeysSlice_Len a -> j < tagKeysSlice_Len a -> k < tagKeysSlice_Len a ->
  tagKeysSlice_Less a i i = Return false /\
  (tagKeysSlice_Less a i j = Return true -> tagKeysSlice_Less a j k = Return true ->
   tagKeysSlice_Less a i k = Return true) /\
  (tagKeysSlice_Less a i j = Return false -> tagKeysSlice_Less a j k = Return false ->
   tagKeysSlice_Less a i k = Return false).
Proof.
  unfold tagKeysSlice_Len, tagKeysSlice_Less. intros Hi Hj Hk.
  destruct (nth_error a i) as [x|] eqn:Ex; [|apply nth_error_None in Ex; lia].
  destruct (nth_error a j) as [y|] eqn:Ey; [|apply nth_error_None in Ey; lia].
  destruct (nth_error a k) as [z|] eqn:Ez; [|apply nth_error_None in Ez; lia].
  split; [now rewrite str_less_irrefl|]. split; intros H1 H2; f_equal.
  - injection H1 as H1. injection H2 as H2. now apply str_less_trans with (Measurement y).
  - injection H1 as H1. injection H2 as H2.
    apply (@str_le_trans (Measurement z) (Measurement y) (Measurement x)); assumption.
Qed.

Lemma tagKeysSlice_Less_strict_weak_witness :
  tagKeysSlice_Less [mkTagKeys "b" []; mkTagKeys "a" []; mkTagKeys "c" []]%string 1 1
    = Return false /\
  (tagKeysSlice_Less [mkTagKeys "b" []; mkTagKeys "a" []; mkTagKeys "c" []]%string 1 0
     = Return true ->
   tagKeysSlice_Less [mkTagKeys "b" []; mkTagKeys "a" []; mkTagKeys "c" []]%string 0 2
     = Return true ->
   tagKeysSlice_Less [mkTagKeys "b" []; mkTagKeys "a" []; mkTagKeys "c" []]%string 1 2
     = Return true) /\
  (tagKeysSlice_Less [mkTagKeys "b" []; mkTagKeys "a" []; mkTagKeys "c" []]%string 1 0
     = Return false ->
   tagKeysSlice_Less [mkTagKeys "b" []; mkTagKeys "a" []; mkTagKeys "c" []]%string 0 2
     = Return false ->
   tagKeysSlice_Less [mkTagKeys "b" []; mkTagKeys "a" []; mkTagKeys "c" []]%string 1 2
     = Return false).
Proof.
  apply tagKeysSlice_Less_strict_weak; simpl; lia.
Defined.

(** ** The time flags of the command *)

Section RunTimes.
Variables Context Shard Aggregate seriesCursor indexSeriesCursor : Type.
Variables time_Parse ParseInt : string -> option Z.
Variables MinNanoTime MaxNanoTime : Z.

(** With neither a start nor an end given, a command with a database passes
    the validation of [Run] with the engine minimum and maximum as its
    times, and the store, when it resolves the request of that command,
    returns these two bounds. *)
Theorem Run_default_range
    (s : Store Context Shard Aggregate seriesCursor indexSeriesCursor)
    (cmd : Command) :
  (MinNanoTime <= MaxNanoTime)%Z ->
  cmd_database cmd <> EmptyString ->
  exists cmd',
    Run_times time_Parse ParseInt MinNanoTime MaxNanoTime cmd EmptyString EmptyString
      = (cmd', None) /\
    cmd_database cmd' = cmd_database cmd /\
    cmd_retentionPolicy cmd' = cmd_retentionPolicy cmd /\
    cmd_startTime cmd' = MinNanoTime /\ cmd_endTime cmd' = MaxNanoTime /\
    (forall db rp st en tr,
        validateArgs MinNanoTime MaxNanoTime s (fst (query_request cmd'))
                     (Start (snd (query_request cmd'))) (End_ (snd (query_request cmd')))
          = (db, rp, st, en, None, tr) ->
        st = MinNanoTime /\ en = MaxNanoTime).
Proof.
  intros Hmm Hdb. eexists. unfold Run_times. cbn [String.eqb negb].
  split.
  - f_equal. apply validate_None. cbn [cmd_database cmd_startTime cmd_endTime].
    split; trivial. right. right. exact Hmm.
  - cbn [cmd_database cmd_retentionPolicy cmd_startTime cmd_endTime].
    repeat split; trivial;
      apply validateArgs_success in H as (_ & -> & ->);
      unfold query_request, norm_start, norm_end;
      cbn [snd Start End_ cmd_startTime cmd_endTime].
    + now destruct (MinNanoTime <=? 0)%Z.
    + now destruct (MaxNanoTime <=? 0)%Z.
Qed.
End RunTimes.

Lemma Run_default_range_witness :
  exists cmd',
    Run_times (fun _ => None) (fun _ => None) engine_MinNanoTime engine_MaxNanoTime
              (mkCommand "db" "" 0 0) EmptyString EmptyString = (cmd', None) /\
    cmd_database cmd' = "db"%string /\
    cmd_retentionPolicy cmd' = EmptyString /\
    cmd_startTime cmd' = engine_MinNanoTime /\ cmd_endTime cmd' = engine_MaxNanoTime /\
    (forall db rp st en tr,
        validateArgs engine_MinNanoTime engine_MaxNanoTime example_store
                     (fst (query_request cmd'))
                     (Start (snd (query_request cmd'))) (End_ (snd (query_request cmd')))
          = (db, rp, st, en, None, tr) ->
        st = engine_MinNanoTime /\ en = engine_MaxNanoTime).
Proof.
  apply (@Run_default_range unit unit unit unit unit (fun _ => None) (fun _ => None)
           engine_MinNanoTime engine_MaxNanoTime example_store (mkCommand "db" "" 0 0)).
  - unfold engine_MinNanoTime, engine_MaxNanoTime. lia.
  - discriminate.
Defined.
